(** * Dijkstra's algorithm over an adjacency matrix

    A shallow embedding of [dijkstra_notebook.py]: the adjacency-matrix
    helpers [distance] and [neighbours], the relaxation loop of [dijkstra]
    with its lazily-deleted priority queue, and the path report printed at
    the end of [dijkstra].

    Modelling conventions.
    - Python ints are [Z]; the only float of the program is [float("inf")],
      the constructor [Inf] of [num].  Matrix entries are ints, as produced
      by [random.randint].
    - Python lists are Coq lists read with [!!] and written with [<[i:=x]>];
      an index beyond the end raises [IndexError] ([getitem], [setitem]).
      All indices of the program are non-negative.
    - Exceptions and non-termination are explicit: [result] is [Ok], [Raise]
      or [OutOfFuel].
    - The caller's [distance_vector] list is mutated in place by [dijkstra]
      and returned; the embedding threads it through the [state] and hands
      the mutated list back, so that a second call on the same list object
      is a call on the list the first call returned.
    - [heapq] is the standard library's binary heap.  It is modelled by its
      contract: [heappush] adds an entry, [heappop] removes and returns the
      least entry in tuple order.
    - The two [while] loops take fuel; [OutOfFuel] stands for a loop that
      has not come to an end within it.  The fuel that [dijkstra] passes on
      is shown to be enough for every input.
    - The diagnostic [print]s inside the loop are left out; the final report
      (one line per target) is kept as a list of [line]s. *)

From stdpp Require Import base numbers list sorting finite gmap.

Local Open Scope Z_scope.

(** ** Results of Python computations *)

Inductive exn := IndexError | TypeError.

Inductive result (A : Type) :=
| Ok (a : A)
| Raise (e : exn)
| OutOfFuel.
Arguments Ok {A} a.
Arguments Raise {A} e.
Arguments OutOfFuel {A}.

#[global] Instance result_ret : MRet result := @Ok.
#[global] Instance result_bind : MBind result := fun A B f r =>
  match r with
  | Ok a => f a
  | Raise e => Raise e
  | OutOfFuel => OutOfFuel
  end.

(** [for x in l: st = body(st, x)] with exceptions propagating. *)
Fixpoint for_each {A S : Type} (l : list A) (body : S → A → result S) (st : S)
  : result S :=
  match l with
  | [] => Ok st
  | x :: l' => st' ← body st x; for_each l' body st'
  end.

(** [[x for x in l if cond(x)]] with exceptions propagating. *)
Fixpoint comprehension {A : Type} (cond : A → result bool) (l : list A)
  : result (list A) :=
  match l with
  | [] => Ok []
  | x :: l' =>
      b ← cond x;
      r ← comprehension cond l';
      Ok (if b : bool then x :: r else r)
  end.

Definition getitem {A : Type} (l : list A) (i : nat) : result A :=
  match l !! i with
  | Some x => Ok x
  | None => Raise IndexError
  end.

Definition setitem {A : Type} (l : list A) (i : nat) (x : A) : result (list A) :=
  if decide (i < length l)%nat then Ok (<[i:=x]> l) else Raise IndexError.

(** ** Numbers: ints and [float("inf")] *)

Inductive num := Int (z : Z) | Inf.

#[global] Instance num_eq_dec : EqDecision num.
Proof. solve_decision. Defined.

(** [a < b] for an int [a]. *)
Definition lt_num (a : Z) (b : num) : bool :=
  match b with
  | Int z => bool_decide (a < z)
  | Inf => true
  end.

(** [b == float('inf')] *)
Definition is_inf (b : num) : bool :=
  match b with
  | Int _ => false
  | Inf => true
  end.

(** ** The priority queue *)

(** Tuple order on [(distance, vertex)]. *)
Definition tuple_le (a b : Z * nat) : bool :=
  bool_decide (a.1 < b.1) || (bool_decide (a.1 = b.1) && bool_decide (a.2 ≤ b.2)%nat).

Definition heappush (h : list (Z * nat)) (x : Z * nat) : list (Z * nat) := x :: h.

Fixpoint heappop (h : list (Z * nat)) : option ((Z * nat) * list (Z * nat)) :=
  match h with
  | [] => None
  | x :: h' =>
      match heappop h' with
      | None => Some (x, [])
      | Some (y, r) => if tuple_le x y then Some (x, h') else Some (y, x :: r)
      end
  end.

(** ** The adjacency matrix *)

Abbreviation matrix_t := (list (list Z)) (only parsing).

(** [edges = [(i, j, matrix[i][j]) for i in range(n) for j in range(n)
              if matrix[i][j] != 0]] *)
Definition edges (matrix : matrix_t) : result (list (nat * nat * Z)) :=
  let n := length matrix in
  for_each (seq 0 n) (fun acc i =>
    for_each (seq 0 n) (fun acc j =>
      row ← getitem matrix i;
      x ← getitem row j;
      if bool_decide (x ≠ 0) then Ok (acc ++ [(i, j, x)]) else Ok acc) acc) [].

(** [return matrix[i][j] if matrix[i][j] != 0 else None] *)
Definition distance (matrix : matrix_t) (i j : nat) : result (option Z) :=
  row ← getitem matrix i;
  x ← getitem row j;
  if bool_decide (x ≠ 0) then Ok (Some x) else Ok None.

(** [[j for j in range(len(matrix)) if distance(matrix, i, j) is not None]] *)
Definition neighbours (matrix : matrix_t) (i : nat) : result (list nat) :=
  comprehension
    (fun j => d ← distance matrix i j; Ok (bool_decide (d ≠ None)))
    (seq 0 (length matrix)).

(** [distance_vector = [float("inf")] * len(matrix); distance_vector[0] = 0] *)
Definition initial_distance_vector (matrix : matrix_t) : result (list num) :=
  setitem (replicate (length matrix) Inf) 0%nat (Int 0).

(** ** The relaxation loop *)

Record state := State {
  visited : gset nat;
  heap : list (Z * nat);
  previous : list (option nat);
  distance_vector : list num
}.

(** The state on entry to the [while] loop. *)
Definition initial_state (matrix : matrix_t) (dv : list num) : state :=
  {| visited := ∅;
     heap := [(0, 0%nat)];
     previous := replicate (length matrix) None;
     distance_vector := dv |}.

(** The body of [for v in neighbours(matrix, u)]. *)
Definition relax (matrix : matrix_t) (current_dist : Z) (u : nat)
    (st : state) (v : nat) : result state :=
  if decide (v ∈ visited st) then Ok st
  else
    w ← distance matrix u v;
    match w with
    | None => Raise TypeError
    | Some w =>
        let alt := current_dist + w in
        old ← getitem (distance_vector st) v;
        if lt_num alt old then
          dv ← setitem (distance_vector st) v (Int alt);
          prev ← setitem (previous st) v (Some u);
          Ok {| visited := visited st;
                heap := heappush (heap st) (alt, v);
                previous := prev;
                distance_vector := dv |}
        else Ok st
    end.

(** The body of [while heap], after the pop of [(current_dist, u)] has left
    the heap [h]. *)
Definition visit (matrix : matrix_t) (current_dist : Z) (u : nat)
    (h : list (Z * nat)) (st : state) : result state :=
  if decide (u ∈ visited st) then
    Ok {| visited := visited st; heap := h;
          previous := previous st; distance_vector := distance_vector st |}
  else
    ns ← neighbours matrix u;
    for_each ns (relax matrix current_dist u)
      {| visited := {[u]} ∪ visited st; heap := h;
         previous := previous st; distance_vector := distance_vector st |}.

Fixpoint loop (fuel : nat) (matrix : matrix_t) (st : state) : result state :=
  match heappop (heap st) with
  | None => Ok st
  | Some ((current_dist, u), h) =>
      match fuel with
      | O => OutOfFuel
      | S fuel' => st' ← visit matrix current_dist u h st; loop fuel' matrix st'
      end
  end.

(** Enough iterations for any run: a vertex is visited at most once, and a
    visit pushes at most one entry per vertex. *)
Definition loop_bound (matrix : matrix_t) : nat :=
  let n := length matrix in (S n * S n + 1)%nat.

(** Lines 29-49 of [dijkstra]: the state when the [while] loop is left. *)
Definition relaxation (matrix : matrix_t) (dv : list num) : result state :=
  loop (loop_bound matrix) matrix (initial_state matrix dv).

(** ** The path report *)

(** [while current is not None: path.append(current); current = previous[current]] *)
Fixpoint walk (fuel : nat) (previous : list (option nat)) (current : option nat)
    (path : list nat) : result (list nat) :=
  match current with
  | None => Ok path
  | Some c =>
      match fuel with
      | O => OutOfFuel
      | S fuel' =>
          next ← getitem previous c;
          walk fuel' previous next (path ++ [c])
      end
  end.

Inductive line :=
| Unreachable (target : nat)
| PathTo (target : nat) (path : list nat) (d : num).

#[global] Instance line_eq_dec : EqDecision line.
Proof. solve_decision. Defined.

(** The body of [for target in range(len(matrix))]; [fuel] bounds the walk. *)
Definition report_target (fuel : nat) (previous : list (option nat))
    (dv : list num) (target : nat) : result line :=
  d ← getitem dv target;
  if is_inf d then Ok (Unreachable target)
  else
    path ← walk fuel previous (Some target) [];
    Ok (PathTo target (reverse path) d).

Definition report (fuel : nat) (previous : list (option nat)) (dv : list num)
    (targets : list nat) : result (list line) :=
  for_each targets
    (fun out target => l ← report_target fuel previous dv target; Ok (out ++ [l]))
    [].

(** [dijkstra(matrix, distance_vector)]: the returned (mutated) distance
    vector and the printed report. *)
Definition dijkstra (matrix : matrix_t) (dv : list num)
  : result (list num * list line) :=
  st ← relaxation matrix dv;
  out ← report (length matrix) (previous st) (distance_vector st)
          (seq 0 (length matrix));
  Ok (distance_vector st, out).

(** [shortest_distances = dijkstra(matrix, distance_vector)] on the
    module-level vector. *)
Definition shortest_distances (matrix : matrix_t) : result (list num * list line) :=
  dv ← initial_distance_vector matrix;
  dijkstra matrix dv.

(** Two calls in succession on the same list object: the second call
    receives the list as the first one left it.  [relaxation_twice] keeps
    the states in which the two loops end, [dijkstra_twice] what the two
    calls return and print. *)
Definition relaxation_twice (matrix : matrix_t) (dv : list num)
  : result (state * state) :=
  st1 ← relaxation matrix dv;
  st2 ← relaxation matrix (distance_vector st1);
  Ok (st1, st2).

Definition dijkstra_twice (matrix : matrix_t) (dv : list num)
  : result ((list num * list line) * (list num * list line)) :=
  r1 ← dijkstra matrix dv;
  r2 ← dijkstra matrix r1.1;
  Ok (r1, r2).

(** * The vocabulary of the specification *)

(** ** Matrices and paths *)

(** Every row is as long as the matrix. *)
Definition square (matrix : matrix_t) : Prop :=
  Forall (fun row => length row = length matrix) matrix.

(** [matrix[i][j]], when both indices are in range. *)
Definition entry (matrix : matrix_t) (i j : nat) : option Z :=
  row ← matrix !! i; row !! j.

(** The weight of the edge from [u] to [v], when there is one. *)
Definition edge_weight (matrix : matrix_t) (u v : nat) : option Z :=
  x ← entry matrix u v; if bool_decide (x ≠ 0) then Some x else None.

(** The sum of the edge weights along the vertex sequence [p]; [None] when
    [p] is empty, leaves the matrix or takes a step that is not an edge. *)
Fixpoint path_weight (matrix : matrix_t) (p : list nat) : option Z :=
  match p with
  | [] => None
  | u :: p' =>
      match p' with
      | [] => if decide (u < length matrix)%nat then Some 0 else None
      | v :: _ =>
          w ← edge_weight matrix u v;
          d ← path_weight matrix p';
          Some (w + d)
      end
  end.

(** [p] is a path from [s] to [t] of total weight [d]. *)
Definition is_path (matrix : matrix_t) (s t : nat) (p : list nat) (d : Z) : Prop :=
  head p = Some s ∧ last p = Some t ∧ path_weight matrix p = Some d.

(** [d] is the least weight of a path from [s] to [t]: no vertex sequence
    from [s] to [t] along edges weighs less, and one that repeats no vertex
    weighs [d]. *)
Definition shortest (matrix : matrix_t) (s t : nat) (d : Z) : Prop :=
  (∃ p, is_path matrix s t p d ∧ NoDup p) ∧
  ∀ p d', is_path matrix s t p d' → d ≤ d'.

(** No entry of the matrix is negative. *)
Definition nonneg (matrix : matrix_t) : Prop :=
  Forall (Forall (fun x => 0 ≤ x)) matrix.

(** Paths from vertex 0, built edge by edge at the far end. *)
Inductive reach (matrix : matrix_t) : nat → Z → Prop :=
| reach_source : (0 < length matrix)%nat → reach matrix 0%nat 0
| reach_edge u v d w :
    reach matrix u d → edge_weight matrix u v = Some w → reach matrix v (d + w).

(** [d] is the least weight with which vertex 0 reaches [v]. *)
Definition least (matrix : matrix_t) (v : nat) (d : Z) : Prop :=
  reach matrix v d ∧ ∀ d', reach matrix v d' → d ≤ d'.

(** ** Distance vectors *)

(** The order [a <= b] on [num], used in statements only. *)
Definition num_le (a b : num) : Prop :=
  match a, b with
  | _, Inf => True
  | Inf, Int _ => False
  | Int x, Int y => x ≤ y
  end.

Definition num_lt (a b : num) : Prop :=
  match a, b with
  | Int _, Inf => True
  | Inf, _ => False
  | Int x, Int y => x < y
  end.

(** Entry by entry, [dv'] is [dv] or lower. *)
Definition lowered (dv dv' : list num) : Prop :=
  ∀ x old, dv !! x = Some old → ∃ new, dv' !! x = Some new ∧ num_le new old.

(** A distance vector as the module sets it up: 0 at the source and
    infinite elsewhere. *)
Definition pristine (dv : list num) : Prop :=
  dv !! 0%nat = Some (Int 0) ∧ ∀ v d, dv !! v = Some (Int d) → v = 0%nat.

(** ** Steps of the loop *)

(** What a successful [relax] does to the state. *)
Inductive relaxed (matrix : matrix_t) (d : Z) (u : nat) (st : state) (v : nat)
  : state → Prop :=
| relaxed_skip :
    v ∈ visited st → relaxed matrix d u st v st
| relaxed_keep w old :
    v ∉ visited st → edge_weight matrix u v = Some w →
    distance_vector st !! v = Some old → lt_num (d + w) old = false →
    relaxed matrix d u st v st
| relaxed_update w old :
    v ∉ visited st → edge_weight matrix u v = Some w →
    distance_vector st !! v = Some old → lt_num (d + w) old = true →
    (v < length (previous st))%nat →
    relaxed matrix d u st v
      {| visited := visited st;
         heap := (d + w, v) :: heap st;
         previous := <[v:=Some u]> (previous st);
         distance_vector := <[v:=Int (d + w)]> (distance_vector st) |}.

(** The state with which a visit of [u] starts relaxing. *)
Definition enter (u : nat) (h : list (Z * nat)) (st : state) : state :=
  {| visited := {[u]} ∪ visited st; heap := h;
     previous := previous st; distance_vector := distance_vector st |}.

(** The state after a stale entry has been popped. *)
Definition discard (h : list (Z * nat)) (st : state) : state :=
  {| visited := visited st; heap := h;
     previous := previous st; distance_vector := distance_vector st |}.

(** A computation that does not run out of fuel. *)
Definition halts {A} (r : result A) : Prop := r ≠ OutOfFuel.

(** ** Invariants of the loop *)

(** Following [prev] from [v] stays inside [V] and meets a vertex without
    predecessor after at most [k] vertices. *)
Inductive rooted (V : gset nat) (prev : list (option nat)) : nat → nat → Prop :=
| rooted_root k v :
    v ∈ V → prev !! v = Some None → rooted V prev (S k) v
| rooted_next k v u :
    v ∈ V → prev !! v = Some (Some u) → rooted V prev k u → rooted V prev (S k) v.


Section invariants.
Context (matrix : matrix_t).

(** The visited set and the heap hold vertices only (and vertex 0 when
    the matrix is empty). *)
Definition bounded (st : state) : Prop :=
  (∀ u, u ∈ visited st → (u < length matrix)%nat ∨ u = 0%nat) ∧
  (∀ d v, (d, v) ∈ heap st → (v < length matrix)%nat ∨ v = 0%nat).

(** The number of iterations that remain, at most. *)
Definition budget (st : state) : nat :=
  ((S (length matrix) - size (visited st)) * S (length matrix) + length (heap st))%nat.

(** The tables keep their lengths and the heap holds vertices only. *)
Definition shaped (len : nat) (st : state) : Prop :=
  length (previous st) = length matrix ∧
  length (distance_vector st) = len ∧
  ∀ d v, (d, v) ∈ heap st → (v < length matrix)%nat ∨ length matrix = 0%nat.

(** The loop invariant.  [settled] vertices carry their least weight;
    every edge out of a settled vertex has been relaxed; every vertex
    with a finite distance that is not yet settled waits in the heap
    under that very distance; and stale heap entries are never below
    the vertex's current distance. *)
Record correct (st : state) : Prop := {
  correct_source : distance_vector st !! 0%nat = Some (Int 0);
  correct_reach : ∀ v d, distance_vector st !! v = Some (Int d) → reach matrix v d;
  correct_heap : ∀ d v, (d, v) ∈ heap st →
    ∃ d', distance_vector st !! v = Some (Int d') ∧ d' ≤ d;
  correct_settled : ∀ u, u ∈ visited st →
    ∃ d, distance_vector st !! u = Some (Int d) ∧ ∀ d', reach matrix u d' → d ≤ d';
  correct_relaxed : ∀ u v w du, u ∈ visited st → v ∉ visited st →
    edge_weight matrix u v = Some w → distance_vector st !! u = Some (Int du) →
    ∃ d', distance_vector st !! v = Some (Int d') ∧ d' ≤ du + w;
  correct_waiting : ∀ v d, v ∉ visited st →
    distance_vector st !! v = Some (Int d) → (d, v) ∈ heap st
}.

(** The invariant of the [for] loop of a visit of [u] popped with
    distance [d]: as [correct], except that the edges out of [u] have
    been relaxed for the neighbours [done] only. *)
Record relaxing (d : Z) (u : nat) (done : list nat) (st : state) : Prop := {
  relaxing_visited : u ∈ visited st;
  relaxing_current : distance_vector st !! u = Some (Int d);
  relaxing_source : distance_vector st !! 0%nat = Some (Int 0);
  relaxing_reach : ∀ v d', distance_vector st !! v = Some (Int d') → reach matrix v d';
  relaxing_heap : ∀ d' v, (d', v) ∈ heap st →
    ∃ d'', distance_vector st !! v = Some (Int d'') ∧ d'' ≤ d';
  relaxing_settled : ∀ u', u' ∈ visited st →
    ∃ d', distance_vector st !! u' = Some (Int d') ∧ ∀ d'', reach matrix u' d'' → d' ≤ d'';
  relaxing_relaxed : ∀ u' v w du, u' ∈ visited st → v ∉ visited st →
    edge_weight matrix u' v = Some w → distance_vector st !! u' = Some (Int du) →
    (u' = u → v ∈ done) →
    ∃ d', distance_vector st !! v = Some (Int d') ∧ d' ≤ du + w;
  relaxing_waiting : ∀ v d', v ∉ visited st →
    distance_vector st !! v = Some (Int d') → (d', v) ∈ heap st
}.

(** The predecessors are settled vertices, and from a settled vertex the
    predecessors lead to a vertex without predecessor. *)
Record forest (st : state) : Prop := {
  forest_length : length (previous st) = length matrix;
  forest_parent : ∀ v u, previous st !! v = Some (Some u) →
    (u < length matrix)%nat ∧ u ∈ visited st ∧ (v ∈ visited st ∨ ∃ d, (d, v) ∈ heap st);
  forest_rooted : ∀ u, u ∈ visited st → (u < length matrix)%nat →
    rooted (visited st) (previous st) (size (visited st)) u
}.

(** No edge from vertex 0 to one of the vertices [vs] improves the
    distance vector [dv]. *)
Definition source_relaxed (vs : list nat) (dv : list num) : Prop :=
  ∀ v, v ∈ vs → v ≠ 0%nat →
    ∃ w old, edge_weight matrix 0 v = Some w ∧ dv !! v = Some old ∧
             lt_num (0 + w) old = false.

(** The loop starts with the visit of vertex 0 at distance 0; from then
    on no edge out of vertex 0 improves the distance vector. *)
Definition started (st : state) : Prop :=
  (visited st = ∅ ∧ heap st = [(0, 0%nat)]) ∨
  (0%nat ∈ visited st ∧
   ∃ ns, neighbours matrix 0 = Ok ns ∧ source_relaxed ns (distance_vector st)).

Context (dv0 : list num).

(** The predecessor table against the distance vector [dv0] that the run
    was given. *)
Record history (st : state) : Prop := {
  history_none : ∀ v, previous st !! v = Some None →
    distance_vector st !! v = dv0 !! v;
  history_some : ∀ v u, previous st !! v = Some (Some u) →
    ∃ new old, distance_vector st !! v = Some new ∧ dv0 !! v = Some old ∧
               num_lt new old;
  history_lowered : lowered dv0 (distance_vector st)
}.

(** Against [dv0], only vertices with a path from vertex 0 have changed. *)
Record reached (st : state) : Prop := {
  reached_heap : ∀ d v, (d, v) ∈ heap st → reach matrix v d;
  reached_changed : ∀ v,
    distance_vector st !! v = dv0 !! v ∨
    ∃ d, distance_vector st !! v = Some (Int d) ∧ reach matrix v d
}.

End invariants.

(** ** Sample data *)

(** A matrix used to exercise the theorems: the edges 0→1 (1), 0→2 (4),
    1→2 (1), 1→3 (5), 2→3 (1), a self-loop 3→3 (2), and vertex 4 with no
    edge at all. *)
Definition sample : list (list Z) :=
  [[0; 1; 4; 0; 0];
   [0; 0; 1; 5; 0];
   [0; 0; 0; 1; 0];
   [0; 0; 0; 2; 0];
   [0; 0; 0; 0; 0]].

(** The module's distance vector for [sample], and the state in which the
    loop leaves the run on it. *)
Definition sample_start : list num := [Int 0; Inf; Inf; Inf; Inf].

Definition sample_final : state :=
  {| visited := list_to_set [0; 1; 2; 3]%nat;
     heap := [];
     previous := [None; Some 0; Some 1; Some 2; None]%nat;
     distance_vector := [Int 0; Int 1; Int 2; Int 3; Inf] |}.



(** ** Further sample data *)

(** A square matrix with a negative entry. *)
Definition signed_sample : list (list Z) := [[0; -3]; [7; 0]].

(** The module's distance vector for [signed_sample], and the state in
    which the loop leaves the run on it. *)
Definition signed_start : list num := [Int 0; Inf].

Definition signed_final : state :=
  {| visited := list_to_set [0; 1]%nat;
     heap := [];
     previous := [None; Some 0%nat];
     distance_vector := [Int 0; Int (-3)] |}.

(** A distance vector as a caller may pass it: longer than the matrix and
    already filled in. *)
Definition used_vector : list num := [Int 5; Int (-1); Inf].

(** The run on [sample] after the visit of vertex 0. *)
Definition sample_midway : state :=
  {| visited := list_to_set [0%nat];
     heap := [(4, 2%nat); (1, 1%nat)];
     previous := [None; Some 0; Some 0; None; None]%nat;
     distance_vector := [Int 0; Int 1; Int 4; Inf; Inf] |}.

(** The same run one step on: [(1, 1)] has been popped and vertex 1 is
    being visited; then after the relaxation of its neighbour 2. *)
Definition sample_visiting : state := enter 1 [(4, 2%nat)] sample_midway.

Definition sample_relaxed : state :=
  {| visited := list_to_set [0; 1]%nat;
     heap := [(2, 2%nat); (4, 2%nat)];
     previous := [None; Some 0; Some 1; None; None]%nat;
     distance_vector := [Int 0; Int 1; Int 2; Inf; Inf] |}.

(** ** Further invariants of the loop *)

(** As far as the vertices of [V] go, [st'] is [st]. *)
Definition kept (V : gset nat) (st st' : state) : Prop :=
  V ⊆ visited st' ∧
  ∀ x, x ∈ V →
    distance_vector st' !! x = distance_vector st !! x ∧
    previous st' !! x = previous st !! x.

(** Entry 0 of the two tables is as at the start, and vertex 0 is visited
    as soon as the loop has made its first step. *)
Definition source_kept (matrix : matrix_t) (dv0 : list num) (st : state) : Prop :=
  distance_vector st !! 0%nat = dv0 !! 0%nat ∧
  previous st !! 0%nat = replicate (length matrix) None !! 0%nat ∧
  (0%nat ∈ visited st ∨ (visited st = ∅ ∧ heap st = [(0, 0%nat)])).

(** Each predecessor is a visited vertex with an edge to its successor, and
    the successor's distance is the predecessor's plus the weight of that
    edge. *)
Definition tree (matrix : matrix_t) (st : state) : Prop :=
  ∀ v u, previous st !! v = Some (Some u) →
    u ∈ visited st ∧
    ∃ du w, distance_vector st !! u = Some (Int du) ∧
            edge_weight matrix u v = Some w ∧
            distance_vector st !! v = Some (Int (du + w)).

(** Finite distances, in a run with weights of either sign: the vertices
    in the heap and the visited ones have one, whoever has one is in the
    heap or visited, and so has every vertex at the end of an edge out of a
    visited vertex. *)
Definition explored (matrix : matrix_t) (st : state) : Prop :=
  (∀ d v, (d, v) ∈ heap st → ∃ d', distance_vector st !! v = Some (Int d')) ∧
  (∀ u, u ∈ visited st → ∃ d, distance_vector st !! u = Some (Int d)) ∧
  (∀ v d, distance_vector st !! v = Some (Int d) →
     v ∈ visited st ∨ ∃ d', (d', v) ∈ heap st) ∧
  (∀ u v w, u ∈ visited st → edge_weight matrix u v = Some w →
     ∃ d, distance_vector st !! v = Some (Int d)).

(** The same during the visit of [u], of whose edges those to the
    neighbours [done] have been relaxed. *)
Definition exploring (matrix : matrix_t) (u : nat) (done : list nat)
    (st : state) : Prop :=
  u ∈ visited st ∧
  (∀ d v, (d, v) ∈ heap st → ∃ d', distance_vector st !! v = Some (Int d')) ∧
  (∀ u', u' ∈ visited st → ∃ d, distance_vector st !! u' = Some (Int d)) ∧
  (∀ v d, distance_vector st !! v = Some (Int d) →
     v ∈ visited st ∨ ∃ d', (d', v) ∈ heap st) ∧
  (∀ u' v w, u' ∈ visited st → edge_weight matrix u' v = Some w →
     (u' = u → v ∈ done) →
     ∃ d, distance_vector st !! v = Some (Int d)).

(** ** Self-loops *)

(** The matrix with its diagonal set to 0. *)
Definition clear_diagonal (matrix : matrix_t) : list (list Z) :=
  imap (fun i row => <[i:=0]> row) matrix.

(** ** The matrix that the module generates *)

(** [[[0 if i == j or random.random() > 0.23 else random.randint(1, 10)
         for j in range(n)] for i in range(n)]], where [absent i j] and
    [weight i j] stand for what [random.random() > 0.23] and
    [random.randint(1, 10)] give for the entry [(i, j)]. *)
Definition random_matrix (n : nat) (absent : nat → nat → bool)
    (weight : nat → nat → Z) : list (list Z) :=
  (fun i =>
     (fun j => if bool_decide (i = j) || absent i j then 0 else weight i j)
       <$> seq 0 n)
    <$> seq 0 n.

(** [matrix[0][k] = w] *)
Definition set_first_row (matrix : matrix_t) (k : nat) (w : Z)
  : result (list (list Z)) :=
  row ← getitem matrix 0%nat;
  row' ← setitem row k w;
  setitem matrix 0%nat row'.

(** Lines 8 and 9 of the module, [k] and [w] standing for what
    [random.randint(1, n-1)] and [random.randint(1, 10)] give there. *)
Definition module_matrix (n : nat) (absent : nat → nat → bool)
    (weight : nat → nat → Z) (k : nat) (w : Z) : result (list (list Z)) :=
  set_first_row (random_matrix n absent weight) k w.

(** A choice of random outcomes for [n = 8]. *)
Definition sample_absent (i j : nat) : bool := bool_decide (j ≠ S i).

Definition sample_weight (i j : nat) : Z := Z.of_nat (S ((i + j) mod 10)).

(** * Basic facts about the model *)

Lemma bind_Ok {A B} (r : result A) (f : A → result B) (b : B) :
  r ≫= f = Ok b → ∃ a, r = Ok a ∧ f a = Ok b.
Proof. destruct r as [a| |]; simpl; [eauto | done | done]. Qed.

Ltac inv_bind H :=
  let a := fresh "a" in
  let Ha := fresh "Ha" in
  apply bind_Ok in H as (a & Ha & H).

Lemma getitem_Ok {A} (l : list A) i x : getitem l i = Ok x ↔ l !! i = Some x.
Proof. unfold getitem. destruct (l !! i); split; congruence. Qed.

Lemma setitem_Ok {A} (l : list A) i x l' :
  setitem l i x = Ok l' ↔ (i < length l)%nat ∧ l' = <[i:=x]> l.
Proof. unfold setitem. case_decide; split; [|intros [_ ->]| |intros [? _]]; (done || lia || by intros [= <-]). Qed.

(** Loop rule for [for_each]: an invariant indexed by the elements already
    processed. *)
Lemma for_each_invariant {A S} (body : S → A → result S)
    (Inv : list A → S → Prop) (l : list A) :
  (∀ done x st st', Inv done st → x ∈ l → body st x = Ok st' → Inv (done ++ [x]) st') →
  ∀ st st', Inv [] st → for_each l body st = Ok st' → Inv l st'.
Proof.
  intros Hbody.
  assert (∀ todo done st st', done ++ todo = l → Inv done st →
            for_each todo body st = Ok st' → Inv l st') as Hgen.
  { induction todo as [|x todo IH]; intros done st st' Hl Hinv Hrun; simpl in Hrun.
    - rewrite app_nil_r in Hl. by simplify_eq.
    - inv_bind Hrun. apply (IH (done ++ [x]) a st'); [by rewrite <- app_assoc | | done].
      apply (Hbody done x st a); [done | subst l; set_solver | done]. }
  intros st st'. by apply Hgen.
Qed.

Lemma comprehension_Ok {A} (cond : A → result bool) l r :
  comprehension cond l = Ok r →
  Forall (fun x => ∃ b, cond x = Ok b) l ∧
  ∀ x, x ∈ r ↔ x ∈ l ∧ cond x = Ok true.
Proof.
  revert r. induction l as [|y l IH]; intros r H; simpl in H.
  - simplify_eq. split; [constructor | set_solver].
  - inv_bind H. inv_bind H. simplify_eq.
    destruct (IH _ Ha0) as [IH1 IH2]. split; [constructor; eauto |].
    intros x. destruct a.
    + rewrite !elem_of_cons, IH2. split.
      * intros [->|[? ?]]; auto.
      * intros [[->|?] ?]; auto.
    + rewrite elem_of_cons, IH2. split.
      * intros [? ?]; auto.
      * intros [[->|?] ?]; [congruence | auto].
Qed.

Lemma comprehension_length {A} (cond : A → result bool) l r :
  comprehension cond l = Ok r → (length r ≤ length l)%nat.
Proof.
  revert r. induction l as [|y l IH]; intros r H; simpl in H.
  - by simplify_eq.
  - inv_bind H. inv_bind H. simplify_eq. specialize (IH _ Ha0).
    destruct a; simpl; lia.
Qed.

(** ** The priority queue returns a least entry *)

Lemma tuple_le_total a b : tuple_le a b = false → tuple_le b a = true.
Proof.
  unfold tuple_le. destruct a as [x i], b as [y j]; simpl.
  repeat case_bool_decide; simpl; try done; lia.
Qed.

Lemma tuple_le_trans a b c : tuple_le a b = true → tuple_le b c = true → tuple_le a c = true.
Proof.
  unfold tuple_le. destruct a as [x i], b as [y j], c as [z k]; simpl.
  repeat case_bool_decide; simpl; try done; lia.
Qed.

Lemma tuple_le_refl a : tuple_le a a = true.
Proof.
  unfold tuple_le. destruct a as [x i]; simpl.
  repeat case_bool_decide; simpl; try done; lia.
Qed.

Lemma heappop_None h : heappop h = None ↔ h = [].
Proof.
  destruct h as [|x h]; simpl; [done |].
  destruct (heappop h) as [[y r]|]; [destruct (tuple_le x y) |]; done.
Qed.

Lemma heappop_Some h x r :
  heappop h = Some (x, r) →
  h ≡ₚ x :: r ∧ ∀ y, y ∈ h → tuple_le x y = true.
Proof.
  revert x r. induction h as [|a h IH]; intros x r H; simpl in H; [done |].
  destruct (heappop h) as [[y r']|] eqn:Hpop.
  - destruct (IH _ _ eq_refl) as [Hperm Hmin].
    destruct (tuple_le a y) eqn:Hle; simplify_eq.
    + split; [done |]. intros z [->|Hz]%elem_of_cons; [apply tuple_le_refl |].
      eapply tuple_le_trans; eauto.
    + split; [rewrite Hperm; apply Permutation_swap |].
      intros z [->|Hz]%elem_of_cons; [by apply tuple_le_total | eauto].
  - apply heappop_None in Hpop. simplify_eq. split; [done |].
    intros z ->%list_elem_of_singleton. apply tuple_le_refl.
Qed.

Lemma heappop_length h x r : heappop h = Some (x, r) → length h = S (length r).
Proof. intros [Hperm _]%heappop_Some. by rewrite Hperm. Qed.

Lemma heappop_elem h x r : heappop h = Some (x, r) → ∀ y, y ∈ h ↔ y = x ∨ y ∈ r.
Proof. intros [Hperm _]%heappop_Some y. rewrite Hperm. apply elem_of_cons. Qed.

(** ** The adjacency matrix *)

Lemma entry_square matrix i j :
  square matrix → (i < length matrix)%nat → (j < length matrix)%nat →
  is_Some (entry matrix i j).
Proof.
  intros Hsq Hi Hj. unfold entry.
  destruct (lookup_lt_is_Some_2 matrix i Hi) as [row Hrow]. rewrite Hrow. simpl.
  apply lookup_lt_is_Some_2.
  unfold square in Hsq. rewrite Forall_lookup in Hsq. by rewrite (Hsq _ _ Hrow).
Qed.

Lemma entry_lt matrix i j x :
  square matrix → entry matrix i j = Some x →
  (i < length matrix)%nat ∧ (j < length matrix)%nat.
Proof.
  intros Hsq H. unfold entry in H.
  destruct (matrix !! i) as [row|] eqn:Hrow; simpl in H; [|done].
  split; [by eapply lookup_lt_Some |].
  unfold square in Hsq. rewrite Forall_lookup in Hsq. rewrite <- (Hsq _ _ Hrow).
  by eapply lookup_lt_Some.
Qed.

Lemma distance_entry matrix i j x :
  entry matrix i j = Some x →
  distance matrix i j = Ok (if bool_decide (x ≠ 0) then Some x else None).
Proof.
  unfold entry, distance, getitem. intros H.
  destruct (matrix !! i) as [row|]; simpl in *; [|done].
  rewrite H. simpl. by case_bool_decide.
Qed.

Lemma distance_Ok matrix i j o :
  distance matrix i j = Ok o ↔
  ∃ x, entry matrix i j = Some x ∧ o = if bool_decide (x ≠ 0) then Some x else None.
Proof.
  split.
  - unfold entry, distance, getitem. intros H.
    destruct (matrix !! i) as [row|]; simpl in *; [|done].
    destruct (row !! j) as [x|]; simpl in *; [|done].
    exists x. split; [done |]. by case_bool_decide; simplify_eq.
  - intros (x & Hx & ->). by apply distance_entry.
Qed.

Lemma distance_edge_weight matrix i j w :
  distance matrix i j = Ok (Some w) ↔ edge_weight matrix i j = Some w.
Proof.
  rewrite distance_Ok. unfold edge_weight. split.
  - intros (x & -> & H). simpl. by case_bool_decide; simplify_eq.
  - intros H. destruct (entry matrix i j) as [x|]; simpl in H; [|done].
    exists x. split; [done |]. by case_bool_decide; simplify_eq.
Qed.

Lemma neighbours_Ok matrix i ns :
  neighbours matrix i = Ok ns →
  ∀ j, j ∈ ns ↔ (j < length matrix)%nat ∧ ∃ w, edge_weight matrix i j = Some w.
Proof.
  intros H j. apply comprehension_Ok in H as [_ H]. rewrite H, elem_of_seq.
  split.
  - intros [Hj Hc]. split; [lia |]. inv_bind Hc.
    destruct a as [w|]; [|by case_bool_decide; simplify_eq].
    exists w. by apply distance_edge_weight.
  - intros [Hj [w Hw]]. split; [lia |].
    apply distance_edge_weight in Hw. rewrite Hw. simpl.
    first [done | by case_bool_decide].
Qed.

Lemma neighbours_length matrix i ns :
  neighbours matrix i = Ok ns → (length ns ≤ length matrix)%nat.
Proof.
  intros H%comprehension_length. by rewrite length_seq in H.
Qed.

Lemma neighbours_square matrix i :
  square matrix → (i < length matrix)%nat → ∃ ns, neighbours matrix i = Ok ns.
Proof.
  intros Hsq Hi. unfold neighbours.
  assert (∀ l, Forall (fun j => j < length matrix)%nat l →
    ∃ ns, comprehension
      (fun j => d ← distance matrix i j; Ok (bool_decide (d ≠ None))) l = Ok ns) as Hgen.
  { induction l as [|j l IH]; intros Hl; simpl; [eauto |].
    inversion Hl as [|? ? Hj Hl']; subst.
    destruct (entry_square matrix i j Hsq Hi Hj) as [x Hx].
    rewrite (distance_entry _ _ _ _ Hx). simpl.
    destruct (IH Hl') as [ns ->]. simpl. eauto. }
  apply Hgen. apply Forall_forall. intros j Hj%elem_of_seq. lia.
Qed.

(** * The relaxation loop, step by step *)

Lemma relax_Ok matrix d u st v st' :
  relax matrix d u st v = Ok st' → relaxed matrix d u st v st'.
Proof.
  unfold relax. intros H. case_decide as Hv.
  { simplify_eq. by constructor. }
  inv_bind H. destruct a as [w|]; [|done].
  apply distance_edge_weight in Ha. inv_bind H. apply getitem_Ok in Ha0.
  destruct (lt_num (d + w) a) eqn:Hlt.
  - inv_bind H. inv_bind H. simplify_eq.
    apply setitem_Ok in Ha1 as [_ ->]. apply setitem_Ok in Ha2 as [? ->].
    by eapply relaxed_update.
  - simplify_eq. by eapply relaxed_keep.
Qed.

Lemma relaxed_relax matrix d u st v st' :
  relaxed matrix d u st v st' → relax matrix d u st v = Ok st'.
Proof.
  unfold relax. intros H. destruct H as [Hv|w old Hv Hw Hold Hlt|w old Hv Hw Hold Hlt Hlen].
  - by rewrite decide_True.
  - rewrite decide_False by done. apply distance_edge_weight in Hw. rewrite Hw. simpl.
    unfold getitem. rewrite Hold. simpl. by rewrite Hlt.
  - rewrite decide_False by done. apply distance_edge_weight in Hw. rewrite Hw. simpl.
    unfold getitem. rewrite Hold. simpl. rewrite Hlt.
    apply lookup_lt_Some in Hold. unfold setitem.
    rewrite (decide_True (P:=(v < length (distance_vector st))%nat)) by done. simpl.
    by rewrite (decide_True (P:=(v < length (previous st))%nat)).
Qed.

Lemma relaxed_visited matrix d u st v st' :
  relaxed matrix d u st v st' → visited st' = visited st.
Proof. by destruct 1. Qed.

Lemma relaxed_lengths matrix d u st v st' :
  relaxed matrix d u st v st' →
  length (previous st') = length (previous st) ∧
  length (distance_vector st') = length (distance_vector st).
Proof. destruct 1; simpl; by rewrite ?length_insert. Qed.

(** Proof rule for one iteration of the [while] loop: [Inv] is the loop
    invariant, [J done] the invariant of the [for] loop after the
    neighbours [done]. *)
Lemma visit_rule (Inv : state → Prop) (J : list nat → state → Prop)
    matrix d u h st st' :
  visit matrix d u h st = Ok st' →
  (u ∈ visited st → Inv (discard h st)) →
  (∀ ns, u ∉ visited st → neighbours matrix u = Ok ns → J [] (enter u h st)) →
  (∀ ns done v s s', neighbours matrix u = Ok ns → v ∈ ns →
     J done s → relaxed matrix d u s v s' → J (done ++ [v]) s') →
  (∀ ns s, neighbours matrix u = Ok ns → J ns s → Inv s) →
  Inv st'.
Proof.
  unfold visit. intros Hrun Hstale Henter Hrelax Hleave.
  case_decide as Hu.
  { simplify_eq. by apply Hstale. }
  inv_bind Hrun. rename a into ns. apply (Hleave ns); [done |].
  eapply (for_each_invariant (relax matrix d u) J ns); [| |exact Hrun].
  - intros done v s s' HJ Hv Hr. apply relax_Ok in Hr. eauto.
  - by apply (Henter ns).
Qed.

(** The same rule when the [for] loop needs no index. *)
Lemma visit_rule_simple (Inv J : state → Prop) matrix d u h st st' :
  visit matrix d u h st = Ok st' →
  (u ∈ visited st → Inv (discard h st)) →
  (∀ ns, u ∉ visited st → neighbours matrix u = Ok ns → J (enter u h st)) →
  (∀ ns v s s', neighbours matrix u = Ok ns → v ∈ ns →
     J s → relaxed matrix d u s v s' → J s') →
  (∀ s, J s → Inv s) →
  Inv st'.
Proof.
  intros Hrun Hstale Henter Hrelax Hleave.
  apply (visit_rule Inv (fun _ => J) matrix d u h st st'); eauto.
Qed.

(** Proof rule for the [while] loop. *)
Lemma loop_rule (Inv : state → Prop) matrix :
  (∀ st d u h st', Inv st → heappop (heap st) = Some ((d, u), h) →
     visit matrix d u h st = Ok st' → Inv st') →
  ∀ fuel st st', Inv st → loop fuel matrix st = Ok st' → Inv st' ∧ heap st' = [].
Proof.
  intros Hstep. induction fuel as [|fuel IH]; intros st st' Hinv Hrun; simpl in Hrun.
  - destruct (heappop (heap st)) as [[[d u] h]|] eqn:Hpop; [done |].
    apply heappop_None in Hpop. by simplify_eq.
  - destruct (heappop (heap st)) as [[[d u] h]|] eqn:Hpop.
    + inv_bind Hrun. apply (IH a); [|done]. by eapply Hstep.
    + apply heappop_None in Hpop. by simplify_eq.
Qed.

Lemma loop_fuel_mono matrix fuel fuel' st st' :
  loop fuel matrix st = Ok st' → (fuel ≤ fuel')%nat → loop fuel' matrix st = Ok st'.
Proof.
  revert fuel' st. induction fuel as [|fuel IH]; intros fuel' st Hrun Hle; simpl in Hrun.
  - destruct (heappop (heap st)) as [[[d u] h]|] eqn:Hpop; [done |].
    destruct fuel'; simpl; by rewrite Hpop.
  - destruct fuel' as [|fuel']; [lia |]. simpl.
    destruct (heappop (heap st)) as [[[d u] h]|] eqn:Hpop; [|done].
    inv_bind Hrun. rewrite Ha. simpl. apply IH; [done | lia].
Qed.

(** ** Termination of the relaxation loop *)

Section termination.
Context (matrix : matrix_t).
Let n := length matrix.

Lemma bounded_size st : bounded matrix st → (size (visited st) ≤ S n)%nat.
Proof.
  intros [HV _].
  rewrite <- (size_set_seq (C:=gset nat) 0 (S n)). apply subseteq_size.
  intros u Hu. apply elem_of_set_seq. specialize (HV u Hu). lia.
Qed.

Lemma bounded_size_vertices st :
  bounded matrix st → (0 < n)%nat → (size (visited st) ≤ n)%nat.
Proof.
  intros [HV _] Hn.
  rewrite <- (size_set_seq (C:=gset nat) 0 n). apply subseteq_size.
  intros u Hu. apply elem_of_set_seq. specialize (HV u Hu). lia.
Qed.

Lemma bounded_initial dv : bounded matrix (initial_state matrix dv).
Proof.
  split; simpl.
  - set_solver.
  - intros d v [= _ ->]%list_elem_of_singleton. lia.
Qed.

Lemma visit_budget st d u h st' :
  bounded matrix st → heappop (heap st) = Some ((d, u), h) →
  visit matrix d u h st = Ok st' →
  bounded matrix st' ∧ (budget matrix st' < budget matrix st)%nat.
Proof.
  intros Hb Hpop Hrun. pose proof (heappop_length _ _ _ Hpop) as Hlen.
  pose proof (heappop_elem _ _ _ Hpop) as Hin. destruct Hb as [HbV HbH].
  eapply (visit_rule (fun s => bounded matrix s ∧ (budget matrix s < budget matrix st)%nat)
            (fun done s => (u ∉ visited st) ∧ bounded matrix s ∧
               visited s = {[u]} ∪ visited st ∧
               (length (heap s) ≤ length h + length done)%nat));
    [exact Hrun | | | |].
  - (* a stale entry *)
    intros Hu. split; [split|]; simpl.
    + done.
    + intros d' v Hv. apply (HbH d'). apply Hin. by right.
    + unfold budget. simpl. lia.
  - (* entering the for loop *)
    intros ns Hu Hns. split; [done|]. split; [split|]; simpl.
    + intros x [->%elem_of_singleton|Hx]%elem_of_union; [|by apply HbV].
      apply (HbH d). apply Hin. by left.
    + intros d' v Hv. apply (HbH d'). apply Hin. by right.
    + split; [done | lia].
  - (* one relaxation *)
    intros ns done v s s' Hns Hv (Hu & [HsV HsH] & HV & Hl) Hr.
    split; [done|]. rewrite length_app. simpl.
    destruct Hr as [?|w old ? ? ? ?|w old ? ? ? ? ?]; simpl.
    + repeat split; try done. lia.
    + repeat split; try done. lia.
    + split; [split|]; simpl; [done | | split; [done | lia]].
      intros d' v' [[= -> ->]|Hv']%elem_of_cons; [|by eapply HsH].
      apply (neighbours_Ok _ _ _ Hns) in Hv. fold n in Hv. lia.
  - (* leaving the for loop *)
    intros ns s Hns (Hu & Hs & HV & Hl). split; [done|].
    pose proof (bounded_size s Hs) as Hsz. rewrite HV in Hsz.
    rewrite size_union, size_singleton in Hsz by set_solver.
    pose proof (neighbours_length _ _ _ Hns) as Hnl. fold n in Hnl.
    unfold budget. rewrite HV, size_union, size_singleton by set_solver.
    replace (S n - size (visited st))%nat with (S (S n - (1 + size (visited st))))%nat by lia.
    rewrite Nat.mul_succ_l. lia.
Qed.

Lemma bind_halts {A B} (r : result A) (f : A → result B) :
  halts r → (∀ a, r = Ok a → halts (f a)) → halts (r ≫= f).
Proof. destruct r; simpl; [eauto | done | done]. Qed.

Lemma getitem_halts {A} (l : list A) i : halts (getitem l i).
Proof. unfold getitem. by destruct (l !! i). Qed.

Lemma setitem_halts {A} (l : list A) i x : halts (setitem l i x).
Proof. unfold setitem. by case_decide. Qed.

Lemma distance_halts i j : halts (distance matrix i j).
Proof.
  unfold distance. apply bind_halts; [apply getitem_halts |]. intros row _.
  apply bind_halts; [apply getitem_halts |]. intros x _. by case_bool_decide.
Qed.

Lemma comprehension_halts {A} (cond : A → result bool) l :
  (∀ x, halts (cond x)) → halts (comprehension cond l).
Proof.
  intros Hc. induction l as [|x l IH]; simpl; [done |].
  apply bind_halts; [done |]. intros b _. by apply bind_halts.
Qed.

Lemma for_each_halts {A S} (body : S → A → result S) l st :
  (∀ s x, halts (body s x)) → halts (for_each l body st).
Proof.
  intros Hb. revert st. induction l as [|x l IH]; intros st; simpl; [done |].
  apply bind_halts; [done |]. intros s _. apply IH.
Qed.

Lemma relax_halts d u st v : halts (relax matrix d u st v).
Proof.
  unfold relax. case_decide; [done |].
  apply bind_halts; [apply distance_halts |]. intros [w|] _; [|done].
  apply bind_halts; [apply getitem_halts |]. intros old _.
  destruct (lt_num (d + w) old); [|done].
  apply bind_halts; [apply setitem_halts |]. intros dv _.
  apply bind_halts; [apply setitem_halts |]. by intros prev _.
Qed.

Lemma visit_halts d u h st : halts (visit matrix d u h st).
Proof.
  unfold visit. case_decide; [done |].
  apply bind_halts.
  - apply comprehension_halts. intros j.
    apply bind_halts; [apply distance_halts | by intros o _].
  - intros ns _. apply for_each_halts. apply relax_halts.
Qed.

Lemma loop_halts fuel st :
  bounded matrix st → (budget matrix st ≤ fuel)%nat → halts (loop fuel matrix st).
Proof.
  revert st. induction fuel as [|fuel IH]; intros st Hb Hfuel; simpl.
  - destruct (heappop (heap st)) as [[[d u] h]|] eqn:Hpop; [|done].
    apply heappop_length in Hpop. unfold budget in Hfuel. lia.
  - destruct (heappop (heap st)) as [[[d u] h]|] eqn:Hpop; [|done].
    apply bind_halts; [apply visit_halts |]. intros st' Hrun.
    destruct (visit_budget _ _ _ _ _ Hb Hpop Hrun) as [Hb' Hlt].
    apply IH; [done | lia].
Qed.

Lemma budget_initial dv : budget matrix (initial_state matrix dv) = loop_bound matrix.
Proof.
  unfold budget, loop_bound, initial_state. cbn [visited heap length].
  rewrite size_empty. fold n. lia.
Qed.

Lemma relaxation_halts dv : halts (relaxation matrix dv).
Proof.
  unfold relaxation. apply loop_halts; [apply bounded_initial |].
  by rewrite budget_initial.
Qed.
End termination.

(** ** The loop raises no exception on a square matrix *)

Lemma for_each_progress {A S} (body : S → A → result S) (J : S → Prop) l :
  (∀ s x, J s → x ∈ l → ∃ s', body s x = Ok s' ∧ J s') →
  ∀ st, J st → ∃ st', for_each l body st = Ok st' ∧ J st'.
Proof.
  induction l as [|x l IH]; intros Hbody st HJ; simpl; [eauto |].
  destruct (Hbody st x HJ) as (s' & -> & HJ'); [set_solver |]. simpl.
  apply IH; [|done]. intros s y Hs Hy. apply Hbody; [done | set_solver].
Qed.

Section shape.
Context (matrix : matrix_t).
Let n := length matrix.

Lemma shaped_initial dv : shaped matrix (length dv) (initial_state matrix dv).
Proof.
  split; [|split]; simpl.
  - apply length_replicate.
  - done.
  - intros d v [= _ ->]%list_elem_of_singleton. lia.
Qed.

Lemma relaxed_shaped len d u ns st v st' :
  neighbours matrix u = Ok ns → v ∈ ns →
  shaped matrix len st → relaxed matrix d u st v st' → shaped matrix len st'.
Proof.
  intros Hns Hv (Hp & Hd & Hh) Hr.
  destruct (relaxed_lengths _ _ _ _ _ _ Hr) as [Hp' Hd'].
  split; [congruence | split; [congruence |]].
  destruct Hr as [?|w old ? ? ? ?|w old ? ? ? ? ?]; simpl; try done.
  intros d' v' [[= -> ->]|Hv']%elem_of_cons; [|by eapply Hh].
  apply (neighbours_Ok _ _ _ Hns) in Hv. left. apply Hv.
Qed.

Lemma visit_shaped len st d u h st' :
  shaped matrix len st → heappop (heap st) = Some ((d, u), h) →
  visit matrix d u h st = Ok st' → shaped matrix len st'.
Proof.
  intros (Hp & Hd & Hh) Hpop Hrun. pose proof (heappop_elem _ _ _ Hpop) as Hin.
  assert (∀ V, shaped matrix len
    {| visited := V; heap := h; previous := previous st;
       distance_vector := distance_vector st |}) as Hsh.
  { intros V. split; [done | split; [done |]]. simpl.
    intros d' v Hv. apply (Hh d'). apply Hin. by right. }
  eapply (visit_rule_simple (shaped matrix len) (shaped matrix len)); [exact Hrun | | | |].
  - intros _. apply Hsh.
  - intros ns _ _. apply Hsh.
  - intros ns v s s' Hns Hv Hs Hr. by eapply relaxed_shaped.
  - done.
Qed.

Lemma loop_shaped len fuel st st' :
  shaped matrix len st → loop fuel matrix st = Ok st' → shaped matrix len st' ∧ heap st' = [].
Proof. apply loop_rule. intros. by eapply visit_shaped. Qed.

Context (Hsq : square matrix).

Lemma neighbours_vertex u :
  (u < n)%nat ∨ n = 0%nat → ∃ ns, neighbours matrix u = Ok ns.
Proof.
  intros [Hu|Hn]; [by apply neighbours_square |].
  unfold neighbours. fold n. rewrite Hn. simpl. eauto.
Qed.

Lemma relax_progress len d u ns st v :
  (n ≤ len)%nat → neighbours matrix u = Ok ns → v ∈ ns → shaped matrix len st →
  ∃ st', relax matrix d u st v = Ok st'.
Proof.
  intros Hlen Hns Hv (Hp & Hd & Hh).
  apply (neighbours_Ok _ _ _ Hns) in Hv as [Hv [w Hw]]. fold n in Hv.
  destruct (lookup_lt_is_Some_2 (distance_vector st) v) as [old Hold]; [lia |].
  destruct (decide (v ∈ visited st)) as [Hin|Hin].
  { exists st. apply relaxed_relax. by constructor. }
  destruct (lt_num (d + w) old) eqn:Hlt.
  - eexists. apply relaxed_relax. eapply relaxed_update; eauto. lia.
  - exists st. apply relaxed_relax. by eapply relaxed_keep.
Qed.

Lemma visit_progress len st d u h :
  (n ≤ len)%nat → shaped matrix len st → heappop (heap st) = Some ((d, u), h) →
  ∃ st', visit matrix d u h st = Ok st'.
Proof.
  intros Hlen Hs Hpop. unfold visit. case_decide as Hu; [eauto |].
  destruct Hs as (Hp & Hd & Hh).
  destruct (neighbours_vertex u) as [ns Hns].
  { apply (Hh d). apply (heappop_elem _ _ _ Hpop). by left. }
  rewrite Hns. simpl.
  destruct (for_each_progress (relax matrix d u) (shaped matrix len) ns) with
    (st := enter u h st) as (st' & Hrun & _).
  - intros s v Hs Hv.
    destruct (relax_progress len d u ns s v) as [s' Hs']; [done..|].
    exists s'. split; [done |]. eapply relaxed_shaped; eauto using relax_Ok.
  - split; [done | split; [done |]]. simpl.
    intros d' v Hv. apply (Hh d'). apply (heappop_elem _ _ _ Hpop). by right.
  - eauto.
Qed.

Lemma loop_returns len fuel st :
  (n ≤ len)%nat → bounded matrix st → shaped matrix len st →
  (budget matrix st ≤ fuel)%nat →
  ∃ st', loop fuel matrix st = Ok st'.
Proof.
  intros Hlen. revert st. induction fuel as [|fuel IH]; intros st Hb Hs Hfuel; simpl.
  - destruct (heappop (heap st)) as [[[d u] h]|] eqn:Hpop; [|eauto].
    apply heappop_length in Hpop. unfold budget in Hfuel. lia.
  - destruct (heappop (heap st)) as [[[d u] h]|] eqn:Hpop; [|eauto].
    destruct (visit_progress len st d u h) as [st1 Hrun]; [done..|].
    rewrite Hrun. simpl.
    destruct (visit_budget _ _ _ _ _ _ Hb Hpop Hrun) as [Hb' Hlt].
    apply IH; [done | by eapply visit_shaped | lia].
Qed.

Lemma relaxation_returns dv :
  (n ≤ length dv)%nat →
  ∃ st, relaxation matrix dv = Ok st ∧ heap st = [] ∧ shaped matrix (length dv) st.
Proof.
  intros Hlen.
  destruct (loop_returns (length dv) (loop_bound matrix) (initial_state matrix dv))
    as [st Hst]; [done | apply bounded_initial | apply shaped_initial | |].
  { by rewrite budget_initial. }
  exists st. split; [done |].
  destruct (loop_shaped (length dv) _ _ _ (shaped_initial dv) Hst) as [? ?]. done.
Qed.
End shape.

(** * Paths in the graph of a matrix *)

Lemma edge_weight_nonneg matrix u v w :
  nonneg matrix → edge_weight matrix u v = Some w → 0 ≤ w.
Proof.
  unfold nonneg, edge_weight, entry. intros Hnn H.
  destruct (matrix !! u) as [row|] eqn:Hrow; simpl in H; [|done].
  destruct (row !! v) as [x|] eqn:Hx; simpl in H; [|done].
  case_bool_decide; simplify_eq.
  rewrite Forall_lookup in Hnn. specialize (Hnn _ _ Hrow).
  rewrite Forall_lookup in Hnn. by apply (Hnn _ _ Hx).
Qed.

Lemma edge_weight_lt matrix u v w :
  square matrix → edge_weight matrix u v = Some w →
  (u < length matrix)%nat ∧ (v < length matrix)%nat.
Proof.
  unfold edge_weight. intros Hsq H.
  destruct (entry matrix u v) as [x|] eqn:Hx; simpl in H; [|done].
  by eapply entry_lt.
Qed.

Lemma reach_nonneg matrix v d : nonneg matrix → reach matrix v d → 0 ≤ d.
Proof.
  intros Hnn. induction 1 as [|u v d w _ IH Hw]; [done |].
  apply (edge_weight_nonneg _ _ _ _ Hnn) in Hw. lia.
Qed.

Lemma reach_lt matrix v d : square matrix → reach matrix v d → (v < length matrix)%nat.
Proof.
  intros Hsq. destruct 1 as [|u v d w _ Hw]; [done |].
  by apply (edge_weight_lt _ _ _ _ Hsq) in Hw as [_ ?].
Qed.

Lemma path_weight_cons matrix u v p :
  path_weight matrix (u :: v :: p) =
  w ← edge_weight matrix u v; d ← path_weight matrix (v :: p); Some (w + d).
Proof. done. Qed.

Lemma path_weight_cons_inv matrix u v p d :
  path_weight matrix (u :: v :: p) = Some d →
  ∃ w d', edge_weight matrix u v = Some w ∧ path_weight matrix (v :: p) = Some d' ∧
          d = w + d'.
Proof.
  rewrite path_weight_cons. intros H.
  destruct (edge_weight matrix u v) as [w|]; [|done].
  destruct (path_weight matrix (v :: p)) as [d'|]; [|done].
  exists w, d'. by injection H as <-.
Qed.

Lemma path_weight_lt matrix p d v :
  square matrix → path_weight matrix p = Some d → v ∈ p → (v < length matrix)%nat.
Proof.
  intros Hsq. revert d. induction p as [|u p IH]; intros d Hp Hv; [done |].
  destruct p as [|u' p].
  - simpl in Hp. case_decide; [|done]. apply list_elem_of_singleton in Hv. by subst.
  - apply path_weight_cons_inv in Hp as (w & d' & Hw & Hp' & ->).
    apply elem_of_cons in Hv as [->|Hv]; [|by eapply IH].
    by apply (edge_weight_lt _ _ _ _ Hsq) in Hw as [? _].
Qed.

Lemma path_weight_snoc matrix p u v d w :
  square matrix → last p = Some u → path_weight matrix p = Some d →
  edge_weight matrix u v = Some w →
  path_weight matrix (p ++ [v]) = Some (d + w).
Proof.
  intros Hsq. revert d. induction p as [|x p IH]; intros d Hlast Hp Hw; [done |].
  destruct p as [|y p].
  - simpl in *. simplify_eq. case_decide; [|done]. simplify_eq.
    rewrite Hw. simpl.
    apply (edge_weight_lt _ _ _ _ Hsq) in Hw as [_ Hv].
    rewrite decide_True by done. simpl. f_equal. lia.
  - apply path_weight_cons_inv in Hp as (w' & d' & Hw' & Hp' & ->).
    change ((x :: y :: p) ++ [v]) with (x :: y :: (p ++ [v])).
    rewrite path_weight_cons, Hw'.
    change (y :: (p ++ [v])) with ((y :: p) ++ [v]).
    rewrite (IH d'); [|done..]. simpl. f_equal. lia.
Qed.

Lemma path_weight_snoc_inv matrix p v d :
  p ≠ [] → path_weight matrix (p ++ [v]) = Some d →
  ∃ u d' w, last p = Some u ∧ path_weight matrix p = Some d' ∧
            edge_weight matrix u v = Some w ∧ d = d' + w.
Proof.
  revert d. induction p as [|x p IH]; intros d Hne Hp; [done |].
  destruct p as [|y p].
  - change ([x] ++ [v]) with [x; v] in Hp.
    apply path_weight_cons_inv in Hp as (w & d' & Hw & Hp & ->).
    simpl in Hp. case_decide; [|done]. simplify_eq.
    exists x, 0, w. simpl. repeat split; try done.
    + destruct (entry matrix x v) as [e|] eqn:He; [|by unfold edge_weight in Hw; rewrite He in Hw].
      unfold entry in He. destruct (matrix !! x) eqn:Hx; [|done].
      apply lookup_lt_Some in Hx. by rewrite decide_True.
    + lia.
  - change ((x :: y :: p) ++ [v]) with (x :: y :: (p ++ [v])) in Hp.
    apply path_weight_cons_inv in Hp as (w' & d1 & Hw' & Hp1 & ->).
    destruct (IH d1) as (u & d' & w & Hlast & Hp' & Hw & ->); [done | done |].
    exists u, (w' + d'), w. repeat split; try done.
    + by rewrite path_weight_cons, Hw', Hp'.
    + lia.
Qed.

Lemma reach_is_path matrix v d :
  square matrix → reach matrix v d ↔ ∃ p, is_path matrix 0 v p d.
Proof.
  intros Hsq. split.
  - induction 1 as [Hn|u v d w _ (p & Hhead & Hlast & Hp) Hw].
    + exists [0%nat]. repeat split; try done. simpl. by rewrite decide_True.
    + exists (p ++ [v]). split; [|split].
      * destruct p; [done |]. done.
      * by rewrite last_snoc.
      * by eapply path_weight_snoc.
  - intros (p & Hhead & Hlast & Hp). revert v d Hhead Hlast Hp.
    induction p as [|x p IH] using rev_ind; intros v d Hhead Hlast Hp; [done |].
    rewrite last_snoc in Hlast. simplify_eq.
    destruct (decide (p = [])) as [->|Hne].
    + simpl in *. simplify_eq. case_decide; [|done]. simplify_eq. by constructor.
    + apply path_weight_snoc_inv in Hp as (u & d' & w & Hlast & Hp & Hw & ->); [|done].
      eapply reach_edge; [|done]. apply IH; [|done..].
      destruct p; [done |]. done.
Qed.

(** Dropping the vertices before an occurrence of [s] leaves a path that
    weighs no more. *)
Lemma path_weight_suffix matrix l1 s l2 d :
  nonneg matrix → path_weight matrix (l1 ++ s :: l2) = Some d →
  ∃ d', path_weight matrix (s :: l2) = Some d' ∧ d' ≤ d.
Proof.
  intros Hnn. revert d. induction l1 as [|u l1 IH]; intros d Hp.
  - exists d. split; [done | lia].
  - destruct (l1 ++ s :: l2) as [|y r] eqn:E; [by destruct l1 |].
    change ((u :: l1) ++ s :: l2) with (u :: (l1 ++ s :: l2)) in Hp. rewrite E in Hp.
    apply path_weight_cons_inv in Hp as (w & d1 & Hw & Hp & ->).
    destruct (IH d1 Hp) as (d' & Hd' & Hle). exists d'. split; [done |].
    apply (edge_weight_nonneg _ _ _ _ Hnn) in Hw. lia.
Qed.

(** Without negative weights, every path can be cut down to one that
    repeats no vertex and weighs no more. *)
Lemma path_simple matrix p s t d :
  nonneg matrix → is_path matrix s t p d →
  ∃ p' d', is_path matrix s t p' d' ∧ NoDup p' ∧ d' ≤ d.
Proof.
  intros Hnn. revert s d. induction p as [|u p IH]; intros s d (Hhead & Hlast & Hp).
  { done. }
  simpl in Hhead. simplify_eq. destruct p as [|y p].
  { exists [s], d. split; [done |]. split; [apply NoDup_singleton | lia]. }
  apply path_weight_cons_inv in Hp as (w & dq & Hw & Hq & ->).
  pose proof (edge_weight_nonneg _ _ _ _ Hnn Hw) as Hw0.
  destruct (IH y dq) as (q' & d' & (Hhead' & Hlast' & Hq') & Hnd & Hle).
  { split; [done |]. split; [|done]. by rewrite last_cons_cons in Hlast. }
  destruct (decide (s ∈ q')) as [Hin|Hnin].
  - apply list_elem_of_split in Hin as (l1 & l2 & ->).
    destruct (path_weight_suffix _ _ _ _ _ Hnn Hq') as (d'' & Hd'' & Hle').
    exists (s :: l2), d''. split; [|split; [|lia]].
    + split; [done |]. split; [|done].
      rewrite last_app in Hlast'.
      destruct (last (s :: l2)) eqn:E; [done |]. by apply last_None in E.
    + apply NoDup_app in Hnd as (_ & _ & Hnd). done.
  - destruct q' as [|y' q']; [done |]. simpl in Hhead'. simplify_eq.
    exists (s :: y :: q'), (w + d'). split; [|split; [|lia]].
    + split; [done |]. split; [by rewrite last_cons_cons |].
      by rewrite path_weight_cons, Hw, Hq'.
    + by apply NoDup_cons.
Qed.

Lemma least_shortest matrix v d :
  square matrix → nonneg matrix → least matrix v d ↔ shortest matrix 0 v d.
Proof.
  intros Hsq Hnn. unfold least, shortest. split.
  - intros [Hr Hmin]. split.
    + apply reach_is_path in Hr as [p Hp]; [|done].
      destruct (path_simple _ _ _ _ _ Hnn Hp) as (p' & d' & Hp' & Hnd & Hle).
      assert (d ≤ d') as Hge by (apply Hmin, reach_is_path; eauto).
      assert (d' = d) as -> by lia. eauto.
    + intros p d' Hp. apply Hmin. apply reach_is_path; eauto.
  - intros [(p & Hp & _) Hmin]. split.
    + apply reach_is_path; eauto.
    + intros d' (p' & Hp')%reach_is_path; eauto.
Qed.

(** * Correctness of the relaxation loop *)

Section correctness.
Context (matrix : matrix_t).
Context (Hsq : square matrix) (Hnn : nonneg matrix).
Let n := length matrix.

(** Every path from the source crosses a vertex whose tentative distance
    is at most the weight of the path, and that vertex is not settled
    unless it is the end of the path. *)
Lemma frontier st x W :
  correct matrix st → reach matrix x W →
  ∃ y dy, distance_vector st !! y = Some (Int dy) ∧ dy ≤ W ∧ (y ∉ visited st ∨ y = x).
Proof.
  intros Hc. induction 1 as [Hn|u x W w Hreach (y & dy & Hy & Hle & Hcase) Hw].
  - exists 0%nat, 0. split; [apply Hc | split; [lia | by right]].
  - pose proof (edge_weight_nonneg _ _ _ _ Hnn Hw) as Hw0.
    destruct Hcase as [Hny| ->].
    { exists y, dy. split; [done | split; [lia | by left]]. }
    destruct (decide (u ∈ visited st)) as [Hu|Hu].
    2:{ exists u, dy. split; [done | split; [lia | by left]]. }
    destruct (decide (x ∈ visited st)) as [Hx|Hx].
    + destruct (correct_settled matrix st Hc x Hx) as (dx & Hdx & Hmin).
      exists x, dx. split; [done | split; [|by right]].
      apply Hmin. by eapply reach_edge.
    + destruct (correct_relaxed matrix st Hc u x w dy Hu Hx Hw Hy) as (dx & Hdx & Hle').
      exists x, dx. split; [done | split; [lia | by right]].
Qed.

(** The popped entry of a vertex that is not settled carries the
    vertex's least weight. *)
Lemma popped_least st d u h :
  correct matrix st → heappop (heap st) = Some ((d, u), h) → u ∉ visited st →
  distance_vector st !! u = Some (Int d) ∧ ∀ d', reach matrix u d' → d ≤ d'.
Proof.
  intros Hc Hpop Hu. destruct (heappop_Some _ _ _ Hpop) as [Hperm Hmin].
  assert ((d, u) ∈ heap st) as Hin by (rewrite Hperm; left).
  destruct (correct_heap matrix st Hc d u Hin) as (d' & Hd' & Hle).
  pose proof (Hmin _ (correct_waiting matrix st Hc u d' Hu Hd')) as Hle'.
  assert (d = d') as <-.
  { unfold tuple_le in Hle'. simpl in Hle'. repeat case_bool_decide; simpl in *; try done; lia. }
  split; [done |]. intros W HW.
  destruct (frontier st u W Hc HW) as (y & dy & Hy & HyW & Hcase).
  assert (y ∉ visited st) as Hny by (by destruct Hcase as [?| ->]).
  pose proof (Hmin _ (correct_waiting matrix st Hc y dy Hny Hy)) as Hle''.
  unfold tuple_le in Hle''. simpl in Hle''.
  repeat case_bool_decide; simpl in *; try done; lia.
Qed.

Lemma correct_discard st d u h :
  correct matrix st → heappop (heap st) = Some ((d, u), h) → u ∈ visited st →
  correct matrix (discard h st).
Proof.
  intros Hc Hpop Hu. pose proof (heappop_elem _ _ _ Hpop) as Hin.
  destruct Hc as [H1 H2 H3 H4 H5 H6]. split; simpl; try done.
  - intros d' v Hv. apply H3. apply Hin. by right.
  - intros v d' Hv Hd'. destruct (Hin (d', v)) as [[Heq|Hh] _]; [by apply H6 | | done].
    by simplify_eq.
Qed.

Lemma relaxing_enter st d u h :
  correct matrix st → heappop (heap st) = Some ((d, u), h) → u ∉ visited st →
  relaxing matrix d u [] (enter u h st).
Proof.
  intros Hc Hpop Hu. pose proof (heappop_elem _ _ _ Hpop) as Hin.
  destruct (popped_least st d u h Hc Hpop Hu) as [Hd Hmin].
  destruct Hc as [H1 H2 H3 H4 H5 H6]. split; simpl; try done.
  - set_solver.
  - intros d' v Hv. apply H3. apply Hin. by right.
  - intros u' [->%elem_of_singleton|Hu']%elem_of_union; [eauto | by apply H4].
  - intros u' v w du [->%elem_of_singleton|Hu']%elem_of_union Hv Hw Hdu Hdone.
    + specialize (Hdone eq_refl). set_solver.
    + apply (H5 u'); [done | set_solver | done..].
  - intros v d' Hv Hd'.
    destruct (Hin (d', v)) as [[Heq|Hh] _]; [apply H6; [set_solver | done] | | done].
    simplify_eq. set_solver.
Qed.

Lemma relaxing_step d u done st v st' :
  relaxing matrix d u done st → relaxed matrix d u st v st' →
  relaxing matrix d u (done ++ [v]) st'.
Proof.
  intros [HV Hcur H1 H2 H3 H4 H5 H6] Hr.
  destruct Hr as [Hv|w old Hv Hw Hold Hlt|w old Hv Hw Hold Hlt Hlen].
  - (* [v] is settled *)
    split; try done. intros u' v' w du Hu' Hv' Hw Hdu Hdone.
    apply (H5 u' v' w du); try done. intros ->.
    specialize (Hdone eq_refl). apply elem_of_app in Hdone as [?|Hdone]; [done |].
    apply list_elem_of_singleton in Hdone. by subst.
  - (* no improvement *)
    split; try done. intros u' v' w' du Hu' Hv' Hw' Hdu Hdone.
    destruct (decide (u' = u ∧ v' = v)) as [[-> ->]|Hne].
    + simplify_eq. destruct old as [o|]; [|done]. simpl in Hlt.
      case_bool_decide; [done |]. exists o. split; [done | lia].
    + apply (H5 u' v' w' du); try done. intros ->.
      specialize (Hdone eq_refl). apply elem_of_app in Hdone as [?|Hdone]; [done |].
      apply list_elem_of_singleton in Hdone. naive_solver.
  - (* the distance of [v] is lowered to [d + w] *)
    assert (u ≠ v) as Huv by (by intros ->).
    assert (reach matrix v (d + w)) as Hreach by (eapply reach_edge; eauto).
    assert (v ≠ 0%nat) as Hv0.
    { intros ->. rewrite H1 in Hold. simplify_eq. simpl in Hlt.
      case_bool_decide; [|done]. apply (reach_nonneg _ _ _ Hnn) in Hreach. lia. }
    assert (∀ o, old = Int o → d + w < o) as Hless.
    { intros o ->. simpl in Hlt. by case_bool_decide. }
    apply lookup_lt_Some in Hold as Hvlen.
    split; simpl.
    + done.
    + by rewrite list_lookup_insert_ne.
    + by rewrite list_lookup_insert_ne.
    + intros v' d'. destruct (decide (v' = v)) as [->|Hne].
      * rewrite list_lookup_insert_eq by done. by intros [= <-].
      * rewrite list_lookup_insert_ne by done. apply H2.
    + intros d' v' [[= -> ->]|Hin]%elem_of_cons.
      * exists (d + w). by rewrite list_lookup_insert_eq.
      * destruct (decide (v' = v)) as [->|Hne].
        -- rewrite list_lookup_insert_eq by done. exists (d + w). split; [done |].
           destruct (H3 _ _ Hin) as (o & Ho & Hle). rewrite Hold in Ho.
           specialize (Hless o). naive_solver lia.
        -- rewrite list_lookup_insert_ne by done. by apply H3.
    + intros u' Hu'. rewrite list_lookup_insert_ne by (by intros ->). by apply H4.
    + intros u' v' w' du Hu' Hv' Hw' Hdu Hdone.
      rewrite list_lookup_insert_ne in Hdu by (by intros ->).
      destruct (decide (v' = v)) as [->|Hne].
      * rewrite list_lookup_insert_eq by done. exists (d + w). split; [done |].
        destruct (decide (u' = u)) as [->|Hneu]; [by simplify_eq; lia |].
        destruct (H5 u' v w' du) as (o & Ho & Hle); [done.. | |].
        { by intros ->. }
        rewrite Hold in Ho. specialize (Hless o). naive_solver lia.
      * rewrite list_lookup_insert_ne by done.
        apply (H5 u' v' w' du); try done. intros ->.
        specialize (Hdone eq_refl). apply elem_of_app in Hdone as [?|Hdone]; [done |].
        apply list_elem_of_singleton in Hdone. by subst.
    + intros v' d' Hv'. destruct (decide (v' = v)) as [->|Hne].
      * rewrite list_lookup_insert_eq by done. intros [= <-]. left.
      * rewrite list_lookup_insert_ne by done. intros Hd'. right. by apply H6.
Qed.

Lemma relaxing_leave d u ns st :
  neighbours matrix u = Ok ns → relaxing matrix d u ns st → correct matrix st.
Proof.
  intros Hns [HV Hcur H1 H2 H3 H4 H5 H6]. split; try done.
  intros u' v w du Hu' Hv Hw Hdu. apply (H5 u' v w du); try done.
  intros ->. apply (neighbours_Ok _ _ _ Hns). split; [|eauto].
  by apply (edge_weight_lt _ _ _ _ Hsq) in Hw as [_ ?].
Qed.

Lemma visit_correct st d u h st' :
  correct matrix st → heappop (heap st) = Some ((d, u), h) →
  visit matrix d u h st = Ok st' → correct matrix st'.
Proof.
  intros Hc Hpop Hrun.
  eapply (visit_rule (correct matrix) (relaxing matrix d u)); [exact Hrun | | | |].
  - intros Hu. by eapply correct_discard.
  - intros ns Hu _. by apply relaxing_enter.
  - intros ns done v s s' _ _ Hs Hr. by eapply relaxing_step.
  - intros ns s Hns Hs. by eapply relaxing_leave.
Qed.

Lemma correct_initial dv : pristine dv → (0 < n)%nat → correct matrix (initial_state matrix dv).
Proof.
  intros [H0 Hinf] Hn. split; simpl.
  - done.
  - intros v d Hd. pose proof (Hinf _ _ Hd) as ->. rewrite H0 in Hd. simplify_eq.
    by constructor.
  - intros d v [= -> ->]%list_elem_of_singleton. exists 0. split; [done | lia].
  - set_solver.
  - set_solver.
  - intros v d _ Hd. pose proof (Hinf _ _ Hd) as ->. rewrite H0 in Hd. simplify_eq.
    by apply list_elem_of_singleton.
Qed.

Lemma correct_final st v d :
  correct matrix st → heap st = [] → reach matrix v d →
  ∃ d', distance_vector st !! v = Some (Int d') ∧ least matrix v d'.
Proof.
  intros Hc Hheap Hreach.
  assert (∀ y dy, distance_vector st !! y = Some (Int dy) → y ∈ visited st) as Hall.
  { intros y dy Hy. destruct (decide (y ∈ visited st)) as [|Hny]; [done |].
    pose proof (correct_waiting matrix st Hc y dy Hny Hy) as Hin. rewrite Hheap in Hin.
    by apply elem_of_nil in Hin. }
  destruct (frontier st v d Hc Hreach) as (y & dy & Hy & _ & Hcase).
  assert (y = v) as -> by (destruct Hcase as [Hny|]; [by apply Hall in Hy | done]).
  destruct (correct_settled matrix st Hc v (Hall _ _ Hy)) as (d' & Hd' & Hmin).
  exists d'. split; [done |]. split; [by apply Hc | done].
Qed.

Lemma relaxation_correct dv st v d :
  pristine dv → relaxation matrix dv = Ok st → reach matrix v d →
  ∃ d', distance_vector st !! v = Some (Int d') ∧ least matrix v d'.
Proof.
  intros Hdv Hrun Hreach.
  assert (0 < n)%nat as Hn.
  { apply (reach_lt _ _ _ Hsq) in Hreach. unfold n. lia. }
  destruct (loop_rule (correct matrix) matrix) with
    (fuel := loop_bound matrix) (st := initial_state matrix dv) (st' := st)
    as [Hc Hheap]; [|by apply correct_initial | done |].
  { intros. by eapply visit_correct. }
  by eapply correct_final.
Qed.
End correctness.

(** * The predecessor table is a forest *)

Lemma rooted_mono V V' prev k k' v :
  rooted V prev k v → V ⊆ V' → (k ≤ k')%nat → rooted V' prev k' v.
Proof.
  intros H HV. revert k'. induction H as [k v Hv Hp|k v u Hv Hp _ IH]; intros k' Hk.
  - destruct k' as [|k']; [lia |]. apply rooted_root; [set_solver | done].
  - destruct k' as [|k']; [lia |]. eapply rooted_next; [set_solver | done |].
    apply IH. lia.
Qed.

Lemma rooted_insert V prev k v x o :
  rooted V prev k v → x ∉ V → rooted V (<[x:=o]> prev) k v.
Proof.
  intros H Hx. induction H as [k v Hv Hp|k v u Hv Hp _ IH].
  - apply rooted_root; [done |]. rewrite list_lookup_insert_ne; [done | by intros ->].
  - eapply rooted_next; [done | | done].
    rewrite list_lookup_insert_ne; [done | by intros ->].
Qed.

Lemma walk_rooted V prev k v path :
  rooted V prev k v → ∃ path', walk k prev (Some v) path = Ok path'.
Proof.
  intros H. revert path. induction H as [k v Hv Hp|k v u Hv Hp _ IH]; intros path; simpl.
  - unfold getitem. rewrite Hp. simpl. destruct k; eauto.
  - unfold getitem. rewrite Hp. simpl. apply IH.
Qed.

Lemma walk_fuel_mono prev k k' cur path path' :
  walk k prev cur path = Ok path' → (k ≤ k')%nat → walk k' prev cur path = Ok path'.
Proof.
  revert k' cur path. induction k as [|k IH]; intros k' cur path H Hk.
  - destruct cur; [done |]. simpl in H. destruct k'; done.
  - destruct cur as [c|]; [|destruct k'; done].
    destruct k' as [|k']; [lia |]. simpl in *.
    inv_bind H. rewrite Ha. simpl. apply IH; [done | lia].
Qed.

Section forest.
Context (matrix : matrix_t).
Let n := length matrix.

Lemma forest_initial dv : forest matrix (initial_state matrix dv).
Proof.
  split; simpl.
  - apply length_replicate.
  - intros v u [? _]%lookup_replicate. done.
  - set_solver.
Qed.

Lemma forest_discard st d u h :
  forest matrix st → heappop (heap st) = Some ((d, u), h) → u ∈ visited st →
  forest matrix (discard h st).
Proof.
  intros [H1 H2 H3] Hpop Hu. pose proof (heappop_elem _ _ _ Hpop) as Hin.
  split; simpl; try done.
  intros v u' Hv. destruct (H2 v u' Hv) as (? & ? & [?|[d' Hd']]); [by auto |].
  apply Hin in Hd' as [[= -> ->]|?]; eauto.
Qed.

Lemma forest_enter st d u h :
  forest matrix st → heappop (heap st) = Some ((d, u), h) → u ∉ visited st →
  forest matrix (enter u h st).
Proof.
  intros [H1 H2 H3] Hpop Hu. pose proof (heappop_elem _ _ _ Hpop) as Hin.
  assert (size ({[u]} ∪ visited st) = S (size (visited st))) as Hsize.
  { rewrite size_union, size_singleton by set_solver. done. }
  split; simpl; try done.
  - intros v u' Hv. destruct (H2 v u' Hv) as (? & ? & [?|[d' Hd']]).
    + split; [done |]. split; set_solver.
    + split; [done |]. split; [set_solver |].
      apply Hin in Hd' as [[= -> ->]|?]; [left; set_solver | eauto].
  - rewrite Hsize.
    intros x [->%elem_of_singleton|Hx]%elem_of_union Hxn.
    + destruct (lookup_lt_is_Some_2 (previous st) u) as [[u'|] Hp]; [lia | |].
      * destruct (H2 _ _ Hp) as (Hu'n & Hu' & _).
        eapply rooted_next; [set_solver | done |].
        eapply rooted_mono; [by apply H3 | set_solver | lia].
      * apply rooted_root; [set_solver | done].
    + eapply rooted_mono; [by apply H3 | set_solver | lia].
Qed.

Lemma forest_relaxed d u ns st v st' :
  neighbours matrix u = Ok ns → v ∈ ns → u ∈ visited st →
  forest matrix st → relaxed matrix d u st v st' → forest matrix st'.
Proof.
  intros Hns Hv Hu [H1 H2 H3] Hr.
  destruct Hr as [?|w old ? ? ? ?|w old Hnv Hw Hold Hlt Hlen]; try done.
  split; simpl.
  - by rewrite length_insert.
  - intros v' u' Hv'. destruct (decide (v' = v)) as [->|Hne].
    + rewrite list_lookup_insert_eq in Hv' by done. simplify_eq.
      split; [|split; [done | right; eexists; left]].
      unfold edge_weight, entry in Hw.
      destruct (matrix !! u') eqn:Hrow; [|done]. by apply lookup_lt_Some in Hrow.
    + rewrite list_lookup_insert_ne in Hv' by done.
      destruct (H2 _ _ Hv') as (? & ? & [?|[d' Hd']]); [by auto |].
      split; [done |]. split; [done |]. right. exists d'. by right.
  - intros x Hx Hxn. apply rooted_insert; [by apply H3 | done].
Qed.

Lemma visit_forest st d u h st' :
  forest matrix st → heappop (heap st) = Some ((d, u), h) →
  visit matrix d u h st = Ok st' → forest matrix st'.
Proof.
  intros Hf Hpop Hrun.
  eapply (visit_rule_simple (forest matrix) (fun s => u ∈ visited s ∧ forest matrix s));
    [exact Hrun | | | |].
  - intros Hu. by eapply forest_discard.
  - intros ns Hu _. split; [set_solver | by eapply forest_enter].
  - intros ns v s s' Hns Hv [Hu Hs] Hr. split.
    + by rewrite (relaxed_visited _ _ _ _ _ _ Hr).
    + by eapply forest_relaxed.
  - by intros s [_ ?].
Qed.

Lemma loop_forest fuel st st' :
  forest matrix st → loop fuel matrix st = Ok st' → forest matrix st' ∧ heap st' = [].
Proof. apply loop_rule. intros. by eapply visit_forest. Qed.

Lemma loop_bounded fuel st st' :
  bounded matrix st → loop fuel matrix st = Ok st' → bounded matrix st' ∧ heap st' = [].
Proof.
  apply loop_rule. intros s d u h s' Hb Hpop Hrun.
  by destruct (visit_budget _ _ _ _ _ _ Hb Hpop Hrun).
Qed.

(** After the loop the walk from any target comes to an end within
    [n] steps. *)
Lemma walk_returns dv st target :
  relaxation matrix dv = Ok st → (target < n)%nat →
  ∃ path, walk n (previous st) (Some target) [] = Ok path.
Proof.
  intros Hrun Ht.
  destruct (loop_forest _ _ _ (forest_initial dv) Hrun) as [[H1 H2 H3] Hheap].
  destruct (loop_bounded _ _ _ (bounded_initial matrix dv) Hrun) as [Hb _].
  apply bounded_size_vertices in Hb; [|fold n; lia]. fold n in Hb.
  destruct (lookup_lt_is_Some_2 (previous st) target) as [[u|] Hp]; [lia | |].
  - destruct (H2 _ _ Hp) as (_ & _ & [Hv|[d Hd]]).
    + destruct (walk_rooted _ _ _ _ [] (H3 target Hv Ht)) as [path Hpath].
      exists path. eapply walk_fuel_mono; [done | lia].
    + rewrite Hheap in Hd. by apply elem_of_nil in Hd.
  - exists [target]. destruct n as [|k]; [lia |].
    simpl. unfold getitem. rewrite Hp. simpl. by destruct k.
Qed.
End forest.

(** ** The report *)

Lemma report_Ok fuel prev dv targets out :
  report fuel prev dv targets = Ok out →
  length out = length targets ∧
  ∀ i t, targets !! i = Some t →
    ∃ l, report_target fuel prev dv t = Ok l ∧ out !! i = Some l.
Proof.
  unfold report. intros H.
  pose (body := fun (out : list line) target =>
    l ← report_target fuel prev dv target; Ok (out ++ [l])).
  apply (for_each_invariant body
    (fun done out => length out = length done ∧
       ∀ i t, done !! i = Some t →
         ∃ l, report_target fuel prev dv t = Ok l ∧ out !! i = Some l)
    targets) with (st := []); [| |exact H].
  - intros done x acc acc' [Hlen Hacc] _ Hbody. unfold body in Hbody.
    inv_bind Hbody. simplify_eq. split; [by rewrite !length_app, Hlen |].
    intros i t Hi. apply lookup_app_Some in Hi as [Hi|[Hge Hi]].
    + destruct (Hacc i t Hi) as (l & Hl & Hout). exists l. split; [done |].
      by apply lookup_app_l_Some.
    + apply list_lookup_singleton_Some in Hi as [Hi ->].
      exists a. split; [done |]. rewrite lookup_app_r by lia.
      replace (i - length acc)%nat with 0%nat by lia. done.
  - split; [done |]. intros i t Hi. by rewrite lookup_nil in Hi.
Qed.

Lemma report_returns fuel prev dv targets :
  (∀ t, t ∈ targets → ∃ l, report_target fuel prev dv t = Ok l) →
  ∃ out, report fuel prev dv targets = Ok out.
Proof.
  intros Ht. unfold report.
  destruct (for_each_progress
    (fun (out : list line) target =>
       l ← report_target fuel prev dv target; Ok (out ++ [l]))
    (fun _ => True) targets) with (st := @nil line) as (out & Hout & _); [|done|eauto].
  intros acc t _ Hin. destruct (Ht t Hin) as [l Hl]. rewrite Hl. simpl. eauto.
Qed.

Lemma for_each_halts_in {A S} (body : S → A → result S) l st :
  (∀ s x, x ∈ l → halts (body s x)) → halts (for_each l body st).
Proof.
  revert st. induction l as [|x l IH]; intros st Hb; simpl; [done |].
  apply bind_halts; [apply Hb; left |]. intros s _. apply IH.
  intros s' y Hy. apply Hb. by right.
Qed.

(** Whatever the matrix and the distance vector, [dijkstra] returns or
    raises: the fuel of its two loops never runs out. *)
Lemma dijkstra_halts matrix dv : halts (dijkstra matrix dv).
Proof.
  unfold dijkstra. apply bind_halts; [apply relaxation_halts |]. intros st Hrun.
  apply bind_halts; [|by intros out _].
  apply for_each_halts_in. intros out t [_ Ht]%elem_of_seq.
  apply bind_halts; [|by intros l _]. unfold report_target.
  apply bind_halts; [apply getitem_halts |]. intros d _.
  destruct (is_inf d); [done |].
  destruct (walk_returns matrix dv st t Hrun) as [path Hpath]; [lia |].
  by rewrite Hpath.
Qed.

Lemma dijkstra_returns matrix dv :
  square matrix → (length matrix ≤ length dv)%nat →
  ∃ st out, relaxation matrix dv = Ok st ∧ heap st = [] ∧
            dijkstra matrix dv = Ok (distance_vector st, out).
Proof.
  intros Hsq Hlen.
  destruct (relaxation_returns matrix Hsq dv Hlen) as (st & Hrun & Hheap & Hshape).
  destruct (report_returns (length matrix) (previous st) (distance_vector st)
              (seq 0 (length matrix))) as [out Hout].
  { intros t [_ Ht]%elem_of_seq. unfold report_target.
    destruct Hshape as (_ & Hd & _).
    destruct (lookup_lt_is_Some_2 (distance_vector st) t) as [d Hdt]; [lia |].
    unfold getitem at 1. rewrite Hdt. cbn [mbind result_bind]. destruct (is_inf d); [eauto |].
    destruct (walk_returns matrix dv st t Hrun) as [path Hpath]; [lia |].
    rewrite Hpath. simpl. eauto. }
  exists st, out. split; [done | split; [done |]].
  unfold dijkstra. rewrite Hrun. simpl. rewrite Hout. done.
Qed.

(** * Distances only go down *)

Lemma lt_num_spec a b : lt_num a b = true ↔ num_lt (Int a) b.
Proof. destruct b; simpl; [by rewrite bool_decide_eq_true | done]. Qed.

Lemma num_le_refl a : num_le a a.
Proof. destruct a; simpl; [lia | done]. Qed.

Lemma num_le_trans a b c : num_le a b → num_le b c → num_le a c.
Proof. destruct a, b, c; simpl; try done; lia. Qed.

Lemma num_lt_le a b : num_lt a b → num_le a b.
Proof. destruct a, b; simpl; try done; lia. Qed.

Lemma lowered_refl dv : lowered dv dv.
Proof. intros x old Hx. exists old. split; [done | apply num_le_refl]. Qed.

Lemma lowered_trans dv1 dv2 dv3 : lowered dv1 dv2 → lowered dv2 dv3 → lowered dv1 dv3.
Proof.
  intros H12 H23 x old Hx. destruct (H12 x old Hx) as (mid & Hmid & Hle).
  destruct (H23 x mid Hmid) as (new & Hnew & Hle'). exists new.
  split; [done |]. by eapply num_le_trans.
Qed.

(** One relaxation leaves every entry as it is or strictly lower. *)
Lemma relaxed_strict matrix d u st v st' :
  relaxed matrix d u st v st' →
  ∀ x old, distance_vector st !! x = Some old →
    ∃ new, distance_vector st' !! x = Some new ∧ (new = old ∨ num_lt new old).
Proof.
  intros Hr x old Hx. destruct Hr as [?|w o ? ? ? ?|w o Hv Hw Hold Hlt Hlen]; eauto.
  simpl. destruct (decide (x = v)) as [->|Hne].
  - rewrite list_lookup_insert_eq by (by eapply lookup_lt_Some).
    exists (Int (d + w)). split; [done |]. right. simplify_eq. by apply lt_num_spec.
  - rewrite list_lookup_insert_ne by done. eauto.
Qed.

Lemma relaxed_lowered matrix d u st v st' :
  relaxed matrix d u st v st' → lowered (distance_vector st) (distance_vector st').
Proof.
  intros Hr x old Hx. destruct (relaxed_strict _ _ _ _ _ _ Hr x old Hx) as (new & Hnew & Hcase).
  exists new. split; [done |]. destruct Hcase as [->|?]; [apply num_le_refl | by apply num_lt_le].
Qed.

Lemma visit_lowered matrix st d u h st' :
  visit matrix d u h st = Ok st' → lowered (distance_vector st) (distance_vector st').
Proof.
  intros Hrun.
  eapply (visit_rule_simple (fun s => lowered (distance_vector st) (distance_vector s))
            (fun s => lowered (distance_vector st) (distance_vector s)));
    [exact Hrun | | | |].
  - intros _. apply lowered_refl.
  - intros ns _ _. apply lowered_refl.
  - intros ns v s s' _ _ Hs Hr. eapply lowered_trans; [done |]. by eapply relaxed_lowered.
  - done.
Qed.

Lemma loop_lowered matrix fuel st st' :
  loop fuel matrix st = Ok st' → lowered (distance_vector st) (distance_vector st').
Proof.
  intros Hrun.
  apply (loop_rule (fun s => lowered (distance_vector st) (distance_vector s)) matrix)
    with (fuel := fuel) (st := st) (st' := st'); [| apply lowered_refl | done].
  intros s d u h s' Hs _ Hv. eapply lowered_trans; [done |]. by eapply visit_lowered.
Qed.

(** ** The predecessor table records the entries this run has lowered *)

Section history.
Context (matrix : matrix_t) (dv0 : list num).

Lemma history_initial : history dv0 (initial_state matrix dv0).
Proof.
  split; simpl; [done | | apply lowered_refl].
  intros v u [? _]%lookup_replicate. done.
Qed.

Lemma history_relaxed d u st v st' :
  history dv0 st → relaxed matrix d u st v st' → history dv0 st'.
Proof.
  intros [H1 H2 H3] Hr. pose proof (relaxed_lowered _ _ _ _ _ _ Hr) as Hlow.
  destruct Hr as [?|w o ? ? ? ?|w o Hv Hw Hold Hlt Hlen]; try done.
  apply lookup_lt_Some in Hold as Hvlen. split; simpl.
  - intros x. destruct (decide (x = v)) as [->|Hne].
    + by rewrite list_lookup_insert_eq.
    + rewrite !list_lookup_insert_ne by done. apply H1.
  - intros x u'. destruct (decide (x = v)) as [->|Hne].
    + intros _. rewrite list_lookup_insert_eq by done.
      apply lt_num_spec in Hlt.
      destruct (lookup_lt_is_Some_2 (previous st) v Hlen) as [[p|] Hp].
      * destruct (H2 _ _ Hp) as (new & old & Hnew & Ho & Hlt').
        exists (Int (d + w)), old. split; [done | split; [done |]].
        rewrite Hold in Hnew. simplify_eq.
        destruct new, old; simpl in *; try done; lia.
      * exists (Int (d + w)), o. split; [done | split; [|done]].
        by rewrite <- (H1 _ Hp).
    + rewrite !list_lookup_insert_ne by done. apply H2.
  - by eapply lowered_trans.
Qed.

Lemma visit_history st d u h st' :
  history dv0 st → visit matrix d u h st = Ok st' → history dv0 st'.
Proof.
  intros Hh Hrun.
  eapply (visit_rule_simple (history dv0) (history dv0)); [exact Hrun | | | |]; try done.
  - intros _. by destruct Hh.
  - intros ns _ _. by destruct Hh.
  - intros ns v s s' _ _ Hs Hr. by eapply history_relaxed.
Qed.

Lemma relaxation_history st : relaxation matrix dv0 = Ok st → history dv0 st.
Proof.
  intros Hrun.
  apply (loop_rule (history dv0) matrix) with
    (fuel := loop_bound matrix) (st := initial_state matrix dv0) (st' := st);
    [| apply history_initial | done].
  intros. by eapply visit_history.
Qed.
End history.

(** ** Only vertices with a path from the source are touched *)

Section reached.
Context (matrix : matrix_t) (dv0 : list num).
Context (Hn : (0 < length matrix)%nat).

Lemma reached_initial : reached matrix dv0 (initial_state matrix dv0).
Proof.
  split; simpl; [|by left].
  intros d v [= -> ->]%list_elem_of_singleton. by constructor.
Qed.

Lemma visit_reached st d u h st' :
  reached matrix dv0 st → heappop (heap st) = Some ((d, u), h) →
  visit matrix d u h st = Ok st' → reached matrix dv0 st'.
Proof.
  intros [H1 H2] Hpop Hrun. pose proof (heappop_elem _ _ _ Hpop) as Hin.
  assert (reach matrix u d) as Hu by (apply H1, Hin; by left).
  assert (∀ V, reached matrix dv0 {| visited := V; heap := h; previous := previous st;
                          distance_vector := distance_vector st |}) as Hsub.
  { intros V. split; simpl; [|done]. intros d' v Hv. apply H1, Hin. by right. }
  eapply (visit_rule_simple (reached matrix dv0) (reached matrix dv0)); [exact Hrun | | | |]; try done.
  - intros _. apply Hsub.
  - intros ns _ _. apply Hsub.
  - intros ns v s s' _ _ [Hs1 Hs2] Hr.
    destruct Hr as [?|w o ? ? ? ?|w o Hv Hw Hold Hlt Hlen]; try done.
    assert (reach matrix v (d + w)) as Hvr by (by eapply reach_edge).
    apply lookup_lt_Some in Hold. split; simpl.
    + intros d' v' [[= -> ->]|Hv']%elem_of_cons; [done | by apply Hs1].
    + intros x. destruct (decide (x = v)) as [->|Hne].
      * right. exists (d + w). by rewrite list_lookup_insert_eq.
      * rewrite list_lookup_insert_ne by done. apply Hs2.
Qed.

Lemma relaxation_reached st : relaxation matrix dv0 = Ok st → reached matrix dv0 st.
Proof.
  intros Hrun.
  apply (loop_rule (reached matrix dv0) matrix) with
    (fuel := loop_bound matrix) (st := initial_state matrix dv0) (st' := st);
    [| apply reached_initial | done].
  intros. by eapply visit_reached.
Qed.
End reached.

(** * A second run on the same distance vector *)

Lemma for_each_unchanged {A S} (body : S → A → result S) l st :
  (∀ x, x ∈ l → body st x = Ok st) → for_each l body st = Ok st.
Proof.
  induction l as [|x l IH]; intros Hbody; simpl; [done |].
  rewrite Hbody by set_solver. simpl. apply IH. intros y Hy. apply Hbody. set_solver.
Qed.

Lemma lt_num_lowered a old new :
  lt_num a old = false → num_le new old → lt_num a new = false.
Proof.
  destruct new as [x|], old as [y|]; simpl; try done.
  intros H Hle. case_bool_decide; [done |]. apply bool_decide_eq_false. lia.
Qed.

Section second_run.
Context (matrix : matrix_t).
Let n := length matrix.

Lemma source_relaxed_lowered vs dv dv' :
  source_relaxed matrix vs dv → lowered dv dv' → source_relaxed matrix vs dv'.
Proof.
  intros H Hlow v Hv Hv0. destruct (H v Hv Hv0) as (w & old & Hw & Hold & Hlt).
  destruct (Hlow v old Hold) as (new & Hnew & Hle).
  exists w, new. split; [done | split; [done |]]. by eapply lt_num_lowered.
Qed.

Lemma visit_started st d u h st' :
  started matrix st → heappop (heap st) = Some ((d, u), h) →
  visit matrix d u h st = Ok st' → started matrix st'.
Proof.
  intros Hst Hpop Hrun. right.
  eapply (visit_rule
    (fun s => 0%nat ∈ visited s ∧
       ∃ ns, neighbours matrix 0 = Ok ns ∧ source_relaxed matrix ns (distance_vector s))
    (fun done s =>
       (0%nat ∈ visited s ∧
        ∃ ns, neighbours matrix 0 = Ok ns ∧ source_relaxed matrix ns (distance_vector s)) ∨
       (visited s = {[0%nat]} ∧ d = 0 ∧ u = 0%nat ∧
        source_relaxed matrix done (distance_vector s)))); [exact Hrun | | | |].
  - intros Hu. destruct Hst as [[HV _]|Hst]; [set_solver | done].
  - intros ns Hu Hns. destruct Hst as [[HV Hh]|[H0 Hsrc]];
      [right | left; split; [simpl; set_solver | done]].
    rewrite Hh in Hpop. simpl in Hpop. simplify_eq. simpl.
    split; [set_solver |]. split; [done | split; [done |]].
    intros v Hv. by apply elem_of_nil in Hv.
  - intros ns done v s s' Hns Hv Hcase Hr.
    pose proof (relaxed_lowered _ _ _ _ _ _ Hr) as Hlow.
    destruct Hcase as [[Hin (ns0 & Hns0 & Hsrc)]|(HV & -> & -> & Hdone)].
    { left. split; [by rewrite (relaxed_visited _ _ _ _ _ _ Hr) |].
      exists ns0. split; [done |].
      by eapply source_relaxed_lowered. }
    right. split; [by rewrite (relaxed_visited _ _ _ _ _ _ Hr) |].
    split; [done | split; [done |]].
    intros v' Hv' Hv0. apply elem_of_app in Hv' as [Hv'|Hv'].
    { by apply (source_relaxed_lowered done (distance_vector s)). }
    apply list_elem_of_singleton in Hv'. subst v'.
    destruct Hr as [Hvis|w o Hnv Hw Ho Hlt|w o Hnv Hw Ho Hlt Hlen].
    + rewrite HV in Hvis. by apply elem_of_singleton in Hvis.
    + by exists w, o.
    + simpl. exists w, (Int (0 + w)). split; [done |].
      rewrite list_lookup_insert_eq by (by eapply lookup_lt_Some).
      split; [done |]. simpl. apply bool_decide_eq_false. lia.
  - intros ns s Hns [[Hin Hsrc]|(HV & -> & -> & Hdone)].
    + done.
    + split; [set_solver |]. by exists ns.
Qed.

Lemma relaxation_started dv st :
  relaxation matrix dv = Ok st →
  ∃ ns, neighbours matrix 0 = Ok ns ∧ source_relaxed matrix ns (distance_vector st).
Proof.
  intros Hrun.
  destruct (loop_rule (started matrix) matrix) with
    (fuel := loop_bound matrix) (st := initial_state matrix dv) (st' := st)
    as [Hst Hheap]; [| by left | done |].
  { intros. by eapply visit_started. }
  destruct Hst as [[_ Hh]|[_ ?]]; [|done]. by rewrite Hheap in Hh.
Qed.

(** On a vector that no edge out of the source improves, the loop visits
    vertex 0, changes nothing and stops. *)
Lemma relaxation_fixpoint dv ns :
  neighbours matrix 0 = Ok ns → source_relaxed matrix ns dv →
  relaxation matrix dv = Ok (enter 0 [] (initial_state matrix dv)).
Proof.
  intros Hns Hsrc. unfold relaxation, loop_bound.
  replace (S (length matrix) * S (length matrix) + 1)%nat with
    (S (S (length matrix) * S (length matrix)))%nat by lia.
  cbn [loop initial_state heap heappop].
  unfold visit. rewrite decide_False by set_solver. rewrite Hns.
  cbn [mbind result_bind].
  rewrite for_each_unchanged.
  - cbn [mbind result_bind]. by destruct (S (length matrix) * S (length matrix))%nat.
  - intros v Hv. apply relaxed_relax.
    destruct (decide (v = 0%nat)) as [->|Hv0].
    + apply relaxed_skip. simpl. set_solver.
    + destruct (Hsrc v Hv Hv0) as (w & old & Hw & Hold & Hlt).
      eapply relaxed_keep; [simpl; set_solver | done | done | done].
Qed.

Lemma relaxation_again dv st :
  relaxation matrix dv = Ok st →
  relaxation matrix (distance_vector st) =
    Ok (enter 0 [] (initial_state matrix (distance_vector st))).
Proof.
  intros (ns & Hns & Hsrc)%relaxation_started. by eapply relaxation_fixpoint.
Qed.
End second_run.

(** * The whole function *)

Lemma dijkstra_Ok matrix dv dv' out :
  dijkstra matrix dv = Ok (dv', out) ↔
  ∃ st, relaxation matrix dv = Ok st ∧ dv' = distance_vector st ∧
        report (length matrix) (previous st) (distance_vector st)
          (seq 0 (length matrix)) = Ok out.
Proof.
  unfold dijkstra. split.
  - intros H. inv_bind H. inv_bind H. simplify_eq. eauto.
  - intros (st & H1 & -> & H3). rewrite H1. simpl. by rewrite H3.
Qed.

Lemma initial_distance_vector_Ok matrix :
  (0 < length matrix)%nat →
  ∃ dv, initial_distance_vector matrix = Ok dv ∧ pristine dv ∧
        length dv = length matrix ∧
        ∀ v, (0 < v < length matrix)%nat → dv !! v = Some Inf.
Proof.
  intros Hn. unfold initial_distance_vector, setitem.
  rewrite decide_True by (by rewrite length_replicate).
  eexists. split; [done |]. split; [split |split].
  - apply list_lookup_insert_eq. by rewrite length_replicate.
  - intros v d. destruct (decide (v = 0%nat)) as [->|Hv]; [done |].
    rewrite list_lookup_insert_ne by done. by intros [? _]%lookup_replicate.
  - by rewrite length_insert, length_replicate.
  - intros v Hv. rewrite list_lookup_insert_ne by lia.
    apply lookup_replicate. split; [done | lia].
Qed.

Lemma report_unreachable fuel prev dv n out v :
  report fuel prev dv (seq 0 n) = Ok out → (v < n)%nat → dv !! v = Some Inf →
  out !! v = Some (Unreachable v).
Proof.
  intros [_ H]%report_Ok Hv Hdv.
  destruct (H v v) as (l & Hl & Hout); [by apply lookup_seq_lt |].
  unfold report_target, getitem in Hl. rewrite Hdv in Hl. simpl in Hl. by simplify_eq.
Qed.

(** ** The edge list of a matrix *)

Lemma edges_Ok matrix es :
  edges matrix = Ok es →
  ∀ i j w, (i, j, w) ∈ es ↔
    (i < length matrix)%nat ∧ (j < length matrix)%nat ∧
    entry matrix i j = Some w ∧ w ≠ 0.
Proof.
  unfold edges. intros H.
  set (n := length matrix) in *.
  set (inner := fun i (acc : list (nat * nat * Z)) j =>
    row ← getitem matrix i; x ← getitem row j;
    if bool_decide (x ≠ 0) then Ok (acc ++ [(i, j, x)]) else Ok acc) in *.
  (* the rows [rows] in full, and of row [i] the columns [cols] *)
  pose (filled := fun (rows : list nat) (i : option nat) (cols : list nat)
                      (acc : list (nat * nat * Z)) =>
    ∀ i' j w, (i', j, w) ∈ acc ↔
      (i' ∈ rows ∧ (j < n)%nat ∨ Some i' = i ∧ j ∈ cols) ∧
      entry matrix i' j = Some w ∧ w ≠ 0).
  assert (∀ i rows acc acc', filled rows None [] acc →
            for_each (seq 0 n) (inner i) acc = Ok acc' →
            filled (rows ++ [i]) None [] acc') as Hrow.
  { intros i rows acc acc' Hacc Hrun.
    assert (filled rows (Some i) (seq 0 n) acc') as Hfull.
    { apply (for_each_invariant (inner i) (fun cols a => filled rows (Some i) cols a)
               (seq 0 n)) with (st := acc); [| |exact Hrun].
      - intros cols j a a' Ha _ Hbody. unfold inner in Hbody.
        inv_bind Hbody. inv_bind Hbody. apply getitem_Ok in Ha0, Ha1.
        assert (entry matrix i j = Some a1) as Hentry.
        { unfold entry. rewrite Ha0. done. }
        intros i' j' w. case_bool_decide as Hnz; simplify_eq.
        + rewrite elem_of_app, list_elem_of_singleton, (Ha i' j' w), elem_of_app,
            list_elem_of_singleton. split.
          * intros [(Hin & ? & ?)|[= -> -> ->]]; [|by auto].
            split; [|done]. destruct Hin as [?|[? ?]]; auto.
          * intros ([?|[Hi [?| ->]]] & Hw & ?); [by left; auto | by left; auto |].
            right. by simplify_eq.
        + rewrite (Ha i' j' w), elem_of_app, list_elem_of_singleton. split.
          * intros (Hin & ? & ?). split; [|done]. destruct Hin as [?|[? ?]]; auto.
          * intros ([?|[Hi [?| ->]]] & Hw & ?); [by auto | by auto |].
            simplify_eq.
      - intros i' j w. rewrite (Hacc i' j w). split.
        + intros ([?|[? ?]] & ?); [by auto | done].
        + intros ([?|[_ Hnil]] & ?); [by auto |]. by apply elem_of_nil in Hnil. }
    intros i' j w.
    rewrite (Hfull i' j w), elem_of_app, list_elem_of_singleton, elem_of_seq. split.
    - intros [[[? ?]|[[= ->] ?]] ?]; (split; [left |done]).
      + split; [by left | done].
      + split; [by right | lia].
    - intros [[[[?| ->] ?]|[? _]] ?]; [| |done].
      + split; [|done]. by left.
      + split; [|done]. right. split; [done | lia]. }
  assert (filled (seq 0 n) None [] es) as Hall.
  { apply (for_each_invariant
             (fun acc i => for_each (seq 0 n) (inner i) acc)
             (fun rows a => filled rows None [] a) (seq 0 n)) with (st := []);
      [| |exact H].
    - intros rows i a a' Ha _ Hbody. by eapply Hrow.
    - intros i' j w. split; [by intros ?%elem_of_nil |].
      intros ([[?%elem_of_nil _]|[? _]] & _); done. }
  intros i j w. rewrite (Hall i j w), elem_of_seq. split.
  - intros ([[? ?]|[? _]] & ? & ?); [|done]. repeat split; try done; lia.
  - intros (? & ? & ? & ?). split; [left; split; [lia | done] | done].
Qed.

(** * The properties of the specification *)

Lemma sample_square : square sample.
Proof. repeat constructor. Qed.

Lemma sample_nonneg : nonneg sample.
Proof. repeat constructor; lia. Qed.

(** C10: on a square matrix, for vertices [i] and [j], [distance] answers
    [None] exactly when the entry [matrix[i][j]] is zero and the entry
    itself otherwise, and [neighbours] lists [j] exactly when the entry is
    not zero; so no call of [distance] ever reports an edge of weight 0. *)
Theorem zero_entry_is_no_edge matrix i j :
  square matrix → (i < length matrix)%nat → (j < length matrix)%nat →
  ∃ x ns,
    entry matrix i j = Some x ∧
    neighbours matrix i = Ok ns ∧
    (distance matrix i j = Ok None ↔ x = 0) ∧
    (distance matrix i j = Ok (Some x) ↔ x ≠ 0) ∧
    (j ∈ ns ↔ x ≠ 0) ∧
    ∀ i' j', distance matrix i' j' ≠ Ok (Some 0).
Proof.
  intros Hsq Hi Hj.
  destruct (entry_square matrix i j Hsq Hi Hj) as [x Hx].
  destruct (neighbours_square matrix i Hsq Hi) as [ns Hns].
  exists x, ns. rewrite (distance_entry _ _ _ _ Hx).
  split; [done | split; [done |]]. repeat split.
  - case_bool_decide as Hnz; [done |]. intros _. lia.
  - intros ->. by rewrite bool_decide_eq_false_2 by (by intros ?).
  - by case_bool_decide.
  - intros Hnz. by rewrite bool_decide_eq_true_2.
  - intros Hin. apply (neighbours_Ok _ _ _ Hns) in Hin as [_ [w Hw]].
    unfold edge_weight in Hw. rewrite Hx in Hw. simpl in Hw.
    by case_bool_decide.
  - intros Hnz. apply (neighbours_Ok _ _ _ Hns). split; [done |]. exists x.
    unfold edge_weight. rewrite Hx. simpl. by rewrite bool_decide_eq_true_2.
  - intros i' j' H. apply distance_Ok in H as (y & _ & H).
    case_bool_decide; by simplify_eq.
Qed.

Lemma zero_entry_is_no_edge_witness :
  square sample ∧ (1 < length sample)%nat ∧ (0 < length sample)%nat ∧
  ∃ x ns,
    entry sample 1 0 = Some x ∧
    neighbours sample 1 = Ok ns ∧
    (distance sample 1 0 = Ok None ↔ x = 0) ∧
    (distance sample 1 0 = Ok (Some x) ↔ x ≠ 0) ∧
    (0%nat ∈ ns ↔ x ≠ 0) ∧
    ∀ i' j', distance sample i' j' ≠ Ok (Some 0).
Proof.
  split; [exact sample_square |]. split; [simpl; lia |]. split; [simpl; lia |].
  apply (zero_entry_is_no_edge sample 1 0); [exact sample_square | simpl; lia..].
Defined.

(** C2: on every square matrix and every distance vector that covers its
    vertices, the relaxation loop comes to an end with an empty heap,
    whatever the weights, self-loops and stale heap entries; [loop_bound]
    iterations are enough, and more fuel changes nothing. *)
Theorem relaxation_terminates matrix dv :
  square matrix → nonneg matrix → (length matrix ≤ length dv)%nat →
  ∃ st, heap st = [] ∧
    ∀ fuel, (loop_bound matrix ≤ fuel)%nat →
      loop fuel matrix (initial_state matrix dv) = Ok st.
Proof.
  intros Hsq _ Hlen.
  destruct (relaxation_returns matrix Hsq dv Hlen) as (st & Hrun & Hheap & _).
  exists st. split; [done |]. intros fuel Hfuel. by eapply loop_fuel_mono.
Qed.

Lemma relaxation_terminates_witness :
  square sample ∧ nonneg sample ∧
  (length sample ≤ length [Int 0; Inf; Inf; Inf; Inf])%nat ∧
  ∃ st, heap st = [] ∧
    ∀ fuel, (loop_bound sample ≤ fuel)%nat →
      loop fuel sample (initial_state sample [Int 0; Inf; Inf; Inf; Inf]) = Ok st.
Proof.
  split; [exact sample_square |]. split; [exact sample_nonneg |].
  split; [simpl; lia |].
  apply (relaxation_terminates sample [Int 0; Inf; Inf; Inf; Inf]);
    [exact sample_square | exact sample_nonneg | simpl; lia].
Defined.

(** C1: on a square matrix without negative entries, for every vertex [v]
    that some path joins to vertex 0, the run on the module's distance
    vector returns, and the returned vector holds at [v] the least weight
    of a path from 0 to [v]: no path weighs less, and a path that repeats
    no vertex weighs exactly that. *)
Theorem dijkstra_shortest matrix v :
  square matrix → nonneg matrix → (∃ p d, is_path matrix 0 v p d) →
  ∃ dv out d,
    shortest_distances matrix = Ok (dv, out) ∧
    dv !! v = Some (Int d) ∧
    shortest matrix 0 v d.
Proof.
  intros Hsq Hnn (p & d & Hp).
  assert (reach matrix v d) as Hreach by (apply reach_is_path; eauto).
  assert (0 < length matrix)%nat as Hn.
  { apply (reach_lt _ _ _ Hsq) in Hreach. lia. }
  destruct (initial_distance_vector_Ok matrix Hn) as (dv0 & Hdv0 & Hpr & Hlen & _).
  destruct (dijkstra_returns matrix dv0 Hsq) as (st & out & Hrun & _ & Hdij); [lia |].
  destruct (relaxation_correct matrix Hsq Hnn dv0 st v d Hpr Hrun Hreach)
    as (d' & Hd' & Hleast).
  exists (distance_vector st), out, d'. split; [|split; [done |]].
  - unfold shortest_distances. rewrite Hdv0. done.
  - by apply least_shortest.
Qed.

Lemma dijkstra_shortest_witness :
  square sample ∧ nonneg sample ∧ (∃ p d, is_path sample 0 3 p d) ∧
  ∃ dv out d,
    shortest_distances sample = Ok (dv, out) ∧
    dv !! 3%nat = Some (Int d) ∧
    shortest sample 0 3 d.
Proof.
  assert (∃ p d, is_path sample 0 3 p d) as Hpath.
  { exists [0; 1; 3]%nat, 6. repeat split. }
  split; [exact sample_square |]. split; [exact sample_nonneg |].
  split; [exact Hpath |].
  exact (dijkstra_shortest sample 3 sample_square sample_nonneg Hpath).
Defined.

(** C6: on a square matrix, for every vertex [v] that no path joins to
    vertex 0, the run on the module's distance vector returns, the
    returned vector still holds [Inf] at [v], and the report line of [v]
    is [Unreachable]. *)
Theorem unreachable_stays_infinite matrix v :
  square matrix → (v < length matrix)%nat → (∀ p d, ¬ is_path matrix 0 v p d) →
  ∃ dv out,
    shortest_distances matrix = Ok (dv, out) ∧
    dv !! v = Some Inf ∧
    out !! v = Some (Unreachable v).
Proof.
  intros Hsq Hv Hnopath.
  assert (0 < length matrix)%nat as Hn by lia.
  assert (∀ d, ¬ reach matrix v d) as Hnoreach.
  { intros d (p & Hp)%reach_is_path; [|done]. by eapply Hnopath. }
  assert (v ≠ 0%nat) as Hv0.
  { intros ->. apply (Hnoreach 0). by constructor. }
  destruct (initial_distance_vector_Ok matrix Hn) as (dv0 & Hdv0 & Hpr & Hlen & Hinf).
  destruct (dijkstra_returns matrix dv0 Hsq) as (st & out & Hrun & _ & Hdij); [lia |].
  assert (distance_vector st !! v = Some Inf) as Hstill.
  { destruct (reached_changed _ _ _ (relaxation_reached matrix dv0 Hn st Hrun) v)
      as [->|(d & _ & Hd)]; [apply Hinf; lia | by apply Hnoreach in Hd]. }
  exists (distance_vector st), out. split; [|split; [done |]].
  - unfold shortest_distances. rewrite Hdv0. done.
  - apply dijkstra_Ok in Hdij as (st' & Hrun' & Heq & Hout).
    rewrite Hrun in Hrun'. simplify_eq. by eapply report_unreachable.
Qed.

Lemma sample_no_edge_into_4 u : edge_weight sample u 4 = None.
Proof. do 5 (destruct u as [|u]; [done |]). done. Qed.

Lemma sample_4_unreachable p d : ¬ is_path sample 0 4 p d.
Proof.
  intros Hp. assert (reach sample 4 d) as Hr.
  { apply reach_is_path; [exact sample_square | eauto]. }
  inversion Hr as [|u v d' w _ Hw]; subst.
  by rewrite sample_no_edge_into_4 in Hw.
Qed.

Lemma unreachable_stays_infinite_witness :
  square sample ∧ (4 < length sample)%nat ∧ (∀ p d, ¬ is_path sample 0 4 p d) ∧
  ∃ dv out,
    shortest_distances sample = Ok (dv, out) ∧
    dv !! 4%nat = Some Inf ∧
    out !! 4%nat = Some (Unreachable 4).
Proof.
  split; [exact sample_square |]. split; [simpl; lia |].
  split; [exact sample_4_unreachable |].
  apply (unreachable_stays_infinite sample 4);
    [exact sample_square | simpl; lia | exact sample_4_unreachable].
Defined.

(** C8: the distance vector is written by [relax] alone.  A successful
    [relax] either leaves the whole state as it was, or makes one update:
    entry [v], which held [old], is set to [current_dist + w], and that
    value is strictly below [old].  Hence from any state on, neither an
    iteration of the loop nor the rest of the loop ever raises an entry. *)
Theorem distances_never_increase matrix :
  (∀ d u st v st', relax matrix d u st v = Ok st' →
     st' = st ∨
     ∃ w old,
       edge_weight matrix u v = Some w ∧
       distance_vector st !! v = Some old ∧
       num_lt (Int (d + w)) old ∧
       distance_vector st' = <[v:=Int (d + w)]> (distance_vector st)) ∧
  (∀ d u h st st', visit matrix d u h st = Ok st' →
     ∀ x old, distance_vector st !! x = Some old →
       ∃ new, distance_vector st' !! x = Some new ∧ num_le new old) ∧
  (∀ fuel st st', loop fuel matrix st = Ok st' →
     ∀ x old, distance_vector st !! x = Some old →
       ∃ new, distance_vector st' !! x = Some new ∧ num_le new old).
Proof.
  split; [|split].
  - intros d u st v st' Hr%relax_Ok.
    destruct Hr as [?|w old ? ? ? ?|w old Hv Hw Hold Hlt Hlen]; [by left | by left |].
    right. exists w, old. split; [done |]. split; [done |].
    split; [by apply lt_num_spec | done].
  - intros d u h st st' Hrun. by eapply visit_lowered.
  - intros fuel st st' Hrun. by eapply loop_lowered.
Qed.

(** ** Path reconstruction *)


Lemma walk_None fuel prev path : walk fuel prev None path = Ok path.
Proof. by destruct fuel. Qed.










(** On the predecessor table that the relaxation loop has built, the walk
    returns, for every target, within as many steps as the matrix has
    vertices: inside [dijkstra] the walk always ends. *)
Lemma walk_terminates_after_relaxation matrix dv st target :
  relaxation matrix dv = Ok st → (target < length matrix)%nat →
  ∃ path, ∀ fuel, (length matrix ≤ fuel)%nat →
    walk fuel (previous st) (Some target) [] = Ok path.
Proof.
  intros Hrun Ht. destruct (walk_returns matrix dv st target Hrun Ht) as [path Hpath].
  exists path. intros fuel Hfuel. by eapply walk_fuel_mono.
Qed.

Lemma sample_relaxation : relaxation sample sample_start = Ok sample_final.
Proof. vm_compute. reflexivity. Qed.

(** The whole run on [sample]: the returned vector and the printed report. *)
Example sample_run :
  shortest_distances sample =
    Ok ([Int 0; Int 1; Int 2; Int 3; Inf],
        [PathTo 0 [0%nat] (Int 0);
         PathTo 1 [0; 1]%nat (Int 1);
         PathTo 2 [0; 1; 2]%nat (Int 2);
         PathTo 3 [0; 1; 2; 3]%nat (Int 3);
         Unreachable 4]).
Proof. vm_compute. reflexivity. Qed.

Lemma walk_terminates_after_relaxation_witness :
  relaxation sample sample_start = Ok sample_final ∧
  (3 < length sample)%nat ∧
  ∃ path, ∀ fuel, (length sample ≤ fuel)%nat →
    walk fuel (previous sample_final) (Some 3%nat) [] = Ok path.
Proof.
  split; [exact sample_relaxation |]. split; [simpl; lia |].
  apply (walk_terminates_after_relaxation sample sample_start sample_final 3);
    [exact sample_relaxation | simpl; lia].
Defined.

(** ** Two runs in succession *)

(** C4, refuted: on [sample], two runs in succession on the same
    distance vector end with the same distances but with different
    predecessor tables, and print different paths. *)
Lemma second_run_forgets_predecessors :
  ∃ st1 st2 out1 out2,
    relaxation_twice sample sample_start = Ok (st1, st2) ∧
    dijkstra_twice sample sample_start =
      Ok ((distance_vector st1, out1), (distance_vector st2, out2)) ∧
    distance_vector st1 = distance_vector st2 ∧
    previous st1 ≠ previous st2 ∧
    out1 ≠ out2.
Proof.
  eexists _, _, _, _. split; [vm_compute; reflexivity |].
  split; [vm_compute; reflexivity |]. split; [done |]. split; done.
Qed.

(** C4, amended: when a run has returned, a second run on the distance
    vector it has left returns too, leaves that vector as it is, and ends
    with a predecessor table that holds no predecessor at all. *)
Theorem second_run_keeps_distances matrix dv st1 :
  relaxation matrix dv = Ok st1 →
  ∃ st2,
    relaxation_twice matrix dv = Ok (st1, st2) ∧
    distance_vector st2 = distance_vector st1 ∧
    previous st2 = replicate (length matrix) None.
Proof.
  intros Hrun. pose proof (relaxation_again matrix dv st1 Hrun) as Hagain.
  eexists. split; [|split].
  - unfold relaxation_twice. rewrite Hrun. simpl. rewrite Hagain. done.
  - done.
  - done.
Qed.

Lemma second_run_keeps_distances_witness :
  relaxation sample sample_start = Ok sample_final ∧
  ∃ st2,
    relaxation_twice sample sample_start = Ok (sample_final, st2) ∧
    distance_vector st2 = distance_vector sample_final ∧
    previous st2 = replicate (length sample) None.
Proof.
  split; [exact sample_relaxation |].
  exact (second_run_keeps_distances sample sample_start sample_final sample_relaxation).
Defined.

(** ** Parallel edges *)





(** With the single edge (0,1,2) the distance of vertex 1 is 2, with the
    single edge (0,1,5) it is 5. *)
Example single_edge_2 :
  shortest_distances [[0; 2]; [0; 0]] =
    Ok ([Int 0; Int 2], [PathTo 0 [0%nat] (Int 0); PathTo 1 [0; 1]%nat (Int 2)]).
Proof. vm_compute. reflexivity. Qed.

Example single_edge_5 :
  shortest_distances [[0; 5]; [0; 0]] =
    Ok ([Int 0; Int 5], [PathTo 0 [0%nat] (Int 0); PathTo 1 [0; 1]%nat (Int 5)]).
Proof. vm_compute. reflexivity. Qed.

(** ** The source vertex *)

(** C7, refuted: on the empty matrix vertex 0 is out of range, and yet
    [dijkstra] returns without an error. *)
Lemma empty_matrix_raises_nothing :
  ¬ (0 < length (@nil (list Z)))%nat ∧
  dijkstra [] [] = Ok ([], []) ∧
  ¬ ∃ e, dijkstra [] [] = Raise e.
Proof.
  split; [simpl; lia |]. split; [done |]. by intros [e ?].
Qed.

(** C7, amended: [dijkstra] has no source argument and checks no range; on
    the empty matrix, where its source, vertex 0, is out of range, the loop
    visits vertex 0 all the same, and the call returns the distance vector
    as it was given, with an empty report. *)
Theorem empty_matrix_returns dv :
  relaxation [] dv =
    Ok {| visited := {[0%nat]} ∪ ∅; heap := []; previous := [];
          distance_vector := dv |} ∧
  dijkstra [] dv = Ok (dv, []).
Proof. split; reflexivity. Qed.

(** ** The distance vector belongs to the caller *)

(** C9, refuted: the run on [sample] overwrites the caller's distance
    vector, and the next run on the same matrix, reading what the first
    has left there, ends in a different state. *)
Lemma distance_vector_is_shared :
  ∃ st1 st2,
    relaxation sample sample_start = Ok st1 ∧
    distance_vector st1 ≠ sample_start ∧
    relaxation sample (distance_vector st1) = Ok st2 ∧
    previous st2 ≠ previous st1.
Proof.
  eexists _, _. split; [vm_compute; reflexivity |]. split; [done |].
  split; [vm_compute; reflexivity |]. done.
Qed.

(** C9, amended: the predecessor table, the heap and the visited set are
    made anew by each run, but the distance vector is the caller's list,
    read and lowered in place.  What the run leaves: a predecessor table of
    the length of the matrix that holds a predecessor exactly at the
    entries of the distance vector that this run has lowered, every other
    entry of the distance vector being as the caller passed it. *)
Theorem predecessors_record_this_run matrix dv st :
  relaxation matrix dv = Ok st →
  length (previous st) = length matrix ∧
  lowered dv (distance_vector st) ∧
  (∀ v, previous st !! v = Some None → distance_vector st !! v = dv !! v) ∧
  (∀ v u, previous st !! v = Some (Some u) →
     ∃ new old, distance_vector st !! v = Some new ∧ dv !! v = Some old ∧
                num_lt new old).
Proof.
  intros Hrun.
  destruct (relaxation_history matrix dv st Hrun) as [H1 H2 H3].
  destruct (loop_forest matrix _ _ _ (forest_initial matrix dv) Hrun) as [[Hlen _ _] _].
  done.
Qed.

Lemma predecessors_record_this_run_witness :
  relaxation sample sample_start = Ok sample_final ∧
  length (previous sample_final) = length sample ∧
  lowered sample_start (distance_vector sample_final) ∧
  (∀ v, previous sample_final !! v = Some None →
     distance_vector sample_final !! v = sample_start !! v) ∧
  (∀ v u, previous sample_final !! v = Some (Some u) →
     ∃ new old, distance_vector sample_final !! v = Some new ∧
                sample_start !! v = Some old ∧ num_lt new old).
Proof.
  split; [exact sample_relaxation |].
  exact (predecessors_record_this_run sample sample_start sample_final sample_relaxation).
Defined.

Lemma sample_visiting_relax :
  heappop (heap sample_midway) = Some ((1, 1%nat), heap sample_visiting) ∧
  relax sample 1 1 sample_visiting 2 = Ok sample_relaxed.
Proof. split; vm_compute; reflexivity. Qed.

Lemma distances_never_increase_witness :
  relax sample 1 1 sample_visiting 2 = Ok sample_relaxed ∧
  sample_relaxed ≠ sample_visiting ∧
  (sample_relaxed = sample_visiting ∨
   ∃ w old,
     edge_weight sample 1 2 = Some w ∧
     distance_vector sample_visiting !! 2%nat = Some old ∧
     num_lt (Int (1 + w)) old ∧
     distance_vector sample_relaxed =
       <[2%nat:=Int (1 + w)]> (distance_vector sample_visiting)) ∧
  loop (loop_bound sample) sample sample_midway = Ok sample_final ∧
  distance_vector sample_midway !! 2%nat = Some (Int 4) ∧
  ∃ new, distance_vector sample_final !! 2%nat = Some new ∧ num_le new (Int 4).
Proof.
  split; [exact (proj2 sample_visiting_relax) |].
  split; [intros [=] |].
  split.
  - exact (proj1 (distances_never_increase sample) 1 1%nat sample_visiting 2%nat
             sample_relaxed (proj2 sample_visiting_relax)).
  - assert (Hrun : loop (loop_bound sample) sample sample_midway = Ok sample_final)
      by (vm_compute; reflexivity).
    split; [exact Hrun |]. split; [reflexivity |].
    exact (proj2 (proj2 (distances_never_increase sample))
             (loop_bound sample) sample_midway sample_final Hrun 2%nat (Int 4) eq_refl).
Defined.

(** * Further properties of the code *)

(** ** Which exceptions can be raised *)

Lemma bind_no_TypeError {A B} (r : result A) (f : A → result B) :
  r ≠ Raise TypeError → (∀ a, r = Ok a → f a ≠ Raise TypeError) →
  r ≫= f ≠ Raise TypeError.
Proof.
  intros Hr Hf. destruct r as [a|e|]; simpl; [by apply Hf | | done].
  intros [= ->]. by apply Hr.
Qed.

Lemma getitem_no_TypeError {A} (l : list A) i : getitem l i ≠ Raise TypeError.
Proof. unfold getitem. by destruct (l !! i). Qed.

Lemma setitem_no_TypeError {A} (l : list A) i x : setitem l i x ≠ Raise TypeError.
Proof. unfold setitem. by case_decide. Qed.

Lemma distance_no_TypeError matrix i j : distance matrix i j ≠ Raise TypeError.
Proof.
  unfold distance. apply bind_no_TypeError; [apply getitem_no_TypeError |].
  intros row _. apply bind_no_TypeError; [apply getitem_no_TypeError |].
  intros x _. by case_bool_decide.
Qed.

Lemma comprehension_no_TypeError {A} (cond : A → result bool) l :
  (∀ x, cond x ≠ Raise TypeError) → comprehension cond l ≠ Raise TypeError.
Proof.
  intros Hc. induction l as [|x l IH]; simpl; [done |].
  apply bind_no_TypeError; [done |]. intros b _. by apply bind_no_TypeError.
Qed.

Lemma neighbours_no_TypeError matrix i : neighbours matrix i ≠ Raise TypeError.
Proof.
  apply comprehension_no_TypeError. intros j.
  apply bind_no_TypeError; [apply distance_no_TypeError | by intros o _].
Qed.

Lemma for_each_no_TypeError {A S} (body : S → A → result S) l st :
  (∀ s x, x ∈ l → body s x ≠ Raise TypeError) →
  for_each l body st ≠ Raise TypeError.
Proof.
  revert st. induction l as [|x l IH]; intros st Hb; simpl; [done |].
  apply bind_no_TypeError; [apply Hb; left |]. intros s _. apply IH.
  intros s' y Hy. apply Hb. by right.
Qed.

(** [distance] is not [None] for a vertex that [neighbours] has listed. *)
Lemma relax_no_TypeError matrix d u ns st v :
  neighbours matrix u = Ok ns → v ∈ ns → relax matrix d u st v ≠ Raise TypeError.
Proof.
  intros Hns Hv. apply (neighbours_Ok _ _ _ Hns) in Hv as [_ [w Hw]].
  apply distance_edge_weight in Hw. unfold relax. case_decide; [done |].
  rewrite Hw. simpl.
  apply bind_no_TypeError; [apply getitem_no_TypeError |]. intros old _.
  destruct (lt_num (d + w) old); [|done].
  apply bind_no_TypeError; [apply setitem_no_TypeError |]. intros dv _.
  apply bind_no_TypeError; [apply setitem_no_TypeError |]. by intros prev _.
Qed.

Lemma visit_no_TypeError matrix d u h st : visit matrix d u h st ≠ Raise TypeError.
Proof.
  unfold visit. case_decide; [done |].
  apply bind_no_TypeError; [apply neighbours_no_TypeError |]. intros ns Hns.
  apply for_each_no_TypeError. intros s v Hv. by eapply relax_no_TypeError.
Qed.

Lemma loop_no_TypeError fuel matrix st : loop fuel matrix st ≠ Raise TypeError.
Proof.
  revert st. induction fuel as [|fuel IH]; intros st; simpl.
  - by destruct (heappop (heap st)) as [[[d u] h]|].
  - destruct (heappop (heap st)) as [[[d u] h]|]; [|done].
    apply bind_no_TypeError; [apply visit_no_TypeError |]. intros st' _. apply IH.
Qed.

Lemma walk_no_TypeError fuel prev cur path : walk fuel prev cur path ≠ Raise TypeError.
Proof.
  revert cur path. induction fuel as [|fuel IH]; intros [c|] path; simpl; try done.
  apply bind_no_TypeError; [apply getitem_no_TypeError |]. intros next _. apply IH.
Qed.

Lemma dijkstra_no_TypeError matrix dv : dijkstra matrix dv ≠ Raise TypeError.
Proof.
  unfold dijkstra. apply bind_no_TypeError; [apply loop_no_TypeError |]. intros st _.
  apply bind_no_TypeError; [|by intros out _].
  apply for_each_no_TypeError. intros out t _.
  apply bind_no_TypeError; [|by intros l _]. unfold report_target.
  apply bind_no_TypeError; [apply getitem_no_TypeError |]. intros x _.
  destruct (is_inf x); [done |].
  apply bind_no_TypeError; [apply walk_no_TypeError | by intros p _].
Qed.

Lemma dijkstra_outcome matrix dv :
  (∃ r, dijkstra matrix dv = Ok r) ∨ dijkstra matrix dv = Raise IndexError.
Proof.
  pose proof (dijkstra_halts matrix dv) as Hhalts.
  pose proof (dijkstra_no_TypeError matrix dv) as Htype.
  destruct (dijkstra matrix dv) as [r|[]|]; [eauto | by right | done | done].
Qed.

(** X1: whatever the matrix and the distance vector, [dijkstra] comes to an
    end, and it either returns or raises [IndexError]: the addition
    [current_dist + distance(matrix, u, v)] never meets [None], because
    [neighbours] has listed [v]. *)
Theorem dijkstra_returns_or_IndexError matrix dv :
  (∃ r, dijkstra matrix dv = Ok r) ∨ dijkstra matrix dv = Raise IndexError.
Proof. apply dijkstra_outcome. Qed.

(** ** The shape of what is returned and printed *)

Lemma walk_head fuel prev c acc path :
  walk fuel prev (Some c) acc = Ok path → ∃ rest, path = acc ++ c :: rest.
Proof.
  revert c acc. induction fuel as [|fuel IH]; intros c acc H; simpl in H; [done |].
  inv_bind H. destruct a as [u|].
  - apply IH in H as [rest ->]. exists (u :: rest). by rewrite <- app_assoc.
  - rewrite walk_None in H. simplify_eq. by exists [].
Qed.

Lemma relaxation_shaped matrix dv st :
  relaxation matrix dv = Ok st → shaped matrix (length dv) st ∧ heap st = [].
Proof. apply loop_shaped, shaped_initial. Qed.

Lemma dijkstra_reads_every_entry matrix dv dv' out t :
  dijkstra matrix dv = Ok (dv', out) → (t < length matrix)%nat →
  (t < length dv)%nat.
Proof.
  intros (st & Hrun & -> & Hout)%dijkstra_Ok Ht.
  destruct (relaxation_shaped _ _ _ Hrun) as [(_ & Hlen & _) _].
  destruct (report_Ok _ _ _ _ _ Hout) as [_ Hline].
  destruct (Hline t t) as (l & Hl & _); [by apply lookup_seq_lt |].
  unfold report_target in Hl. inv_bind Hl. apply getitem_Ok, lookup_lt_Some in Ha. lia.
Qed.

(** X2: when [dijkstra] returns, the vector it returns is as long as the
    one it was given, and the report has one line per vertex: the line of
    [t] is [Unreachable t] when the returned entry of [t] is infinite, and
    otherwise a path that ends at [t] together with that entry. *)
Theorem report_follows_distances matrix dv dv' out :
  dijkstra matrix dv = Ok (dv', out) →
  length dv' = length dv ∧
  length out = length matrix ∧
  ∀ t, (t < length matrix)%nat →
    ∃ x, dv' !! t = Some x ∧
      match x with
      | Inf => out !! t = Some (Unreachable t)
      | Int _ => ∃ p, out !! t = Some (PathTo t p x) ∧ last p = Some t
      end.
Proof.
  intros (st & Hrun & -> & Hout)%dijkstra_Ok.
  destruct (relaxation_shaped _ _ _ Hrun) as [(_ & Hlen & _) _].
  destruct (report_Ok _ _ _ _ _ Hout) as [Hlines Hline].
  rewrite length_seq in Hlines. split; [done | split; [done |]].
  intros t Ht. destruct (Hline t t) as (l & Hl & Hlt); [by apply lookup_seq_lt |].
  unfold report_target in Hl. inv_bind Hl. apply getitem_Ok in Ha.
  exists a. split; [done |]. destruct a as [z|]; simpl in Hl.
  - inv_bind Hl. simplify_eq. apply walk_head in Ha0 as [rest ->]. simpl.
    exists (reverse (t :: rest)). split; [done |].
    rewrite reverse_cons. apply last_snoc.
  - by simplify_eq.
Qed.

Lemma sample_dijkstra :
  dijkstra sample sample_start =
    Ok ([Int 0; Int 1; Int 2; Int 3; Inf],
        [PathTo 0 [0%nat] (Int 0);
         PathTo 1 [0; 1]%nat (Int 1);
         PathTo 2 [0; 1; 2]%nat (Int 2);
         PathTo 3 [0; 1; 2; 3]%nat (Int 3);
         Unreachable 4]).
Proof. vm_compute. reflexivity. Qed.

Lemma report_follows_distances_witness :
  ∃ dv' out,
    dijkstra sample sample_start = Ok (dv', out) ∧
    length dv' = length sample_start ∧
    length out = length sample ∧
    ∀ t, (t < length sample)%nat →
      ∃ x, dv' !! t = Some x ∧
        match x with
        | Inf => out !! t = Some (Unreachable t)
        | Int _ => ∃ p, out !! t = Some (PathTo t p x) ∧ last p = Some t
        end.
Proof.
  eexists _, _. split; [exact sample_dijkstra |].
  exact (report_follows_distances sample sample_start _ _ sample_dijkstra).
Defined.

(** X3: on a square matrix, with a distance vector that has an entry for
    each vertex, [dijkstra] raises nothing: it returns, whatever the
    weights and whatever the vector holds. *)
Theorem dijkstra_raises_nothing matrix dv :
  square matrix → (length matrix ≤ length dv)%nat →
  ∃ dv' out, dijkstra matrix dv = Ok (dv', out).
Proof.
  intros Hsq Hlen.
  destruct (dijkstra_returns matrix dv Hsq Hlen) as (st & out & _ & _ & H). eauto.
Qed.

Lemma dijkstra_raises_nothing_witness :
  square signed_sample ∧
  (length signed_sample ≤ length used_vector)%nat ∧
  ∃ dv' out, dijkstra signed_sample used_vector = Ok (dv', out).
Proof.
  assert (square signed_sample) as Hsq by (repeat constructor).
  split; [exact Hsq |]. split; [simpl; lia |].
  apply (dijkstra_raises_nothing signed_sample used_vector Hsq).
  simpl; lia.
Defined.

(** X4: with a distance vector shorter than the matrix, [dijkstra] raises
    [IndexError], whatever the matrix holds: at the latest when the report
    reads the entry of the first vertex that the vector lacks. *)
Theorem short_vector_raises_IndexError matrix dv :
  (length dv < length matrix)%nat → dijkstra matrix dv = Raise IndexError.
Proof.
  intros Hshort.
  destruct (dijkstra_outcome matrix dv) as [[[dv' out] Hr]|H]; [|done].
  pose proof (dijkstra_reads_every_entry _ _ _ _ (length dv) Hr Hshort). lia.
Qed.

Lemma short_vector_raises_IndexError_witness :
  (length [Int 0; Inf] < length sample)%nat ∧
  dijkstra sample [Int 0; Inf] = Raise IndexError.
Proof.
  split; [simpl; lia |].
  apply (short_vector_raises_IndexError sample [Int 0; Inf]). simpl; lia.
Defined.

(** ** The helpers of the adjacency matrix *)

Lemma neighbours_filter matrix i ns :
  neighbours matrix i = Ok ns →
  ns = filter (fun j => is_Some (edge_weight matrix i j)) (seq 0 (length matrix)).
Proof.
  unfold neighbours. generalize (seq 0 (length matrix)). intros l. revert ns.
  induction l as [|j l IH]; intros ns H; simpl in H; [by simplify_eq |].
  inv_bind H. inv_bind H. inv_bind Ha. simplify_eq.
  rewrite filter_cons, <- (IH _ Ha0).
  destruct a1 as [w|].
  - apply distance_edge_weight in Ha1. rewrite Ha1.
    rewrite decide_True by eauto. done.
  - apply distance_Ok in Ha1 as (x & Hx & Hnone).
    assert (edge_weight matrix i j = None) as ->.
    { unfold edge_weight. rewrite Hx. simpl. by case_bool_decide. }
    rewrite decide_False by (by intros [? ?]). done.
Qed.

Lemma StronglySorted_lt_seq j n : StronglySorted lt (seq j n).
Proof.
  revert j. induction n as [|n IH]; intros j; simpl; constructor; [apply IH |].
  apply Forall_forall. intros x Hx%elem_of_seq. lia.
Qed.

Lemma StronglySorted_filter {A} (R : relation A) (P : A → Prop)
    `{∀ x, Decision (P x)} l :
  StronglySorted R l → StronglySorted R (filter P l).
Proof.
  induction 1 as [|x l Hl IH Hx]; [constructor |].
  rewrite filter_cons. case_decide; [|done]. constructor; [done |].
  apply Forall_forall. intros y [_ Hy]%list_elem_of_filter.
  rewrite Forall_forall in Hx. by apply Hx.
Qed.

(** X5: [neighbours(matrix, i)], when it returns, lists the columns of the
    non-zero entries of row [i] among the first [len(matrix)] ones, each
    once and in increasing order. *)
Theorem neighbours_in_increasing_order matrix i ns :
  neighbours matrix i = Ok ns →
  ns = filter (fun j => is_Some (edge_weight matrix i j)) (seq 0 (length matrix)) ∧
  StronglySorted lt ns ∧
  NoDup ns.
Proof.
  intros H%neighbours_filter. split; [done |]. subst ns. split.
  - apply StronglySorted_filter, StronglySorted_lt_seq.
  - apply NoDup_filter, NoDup_seq.
Qed.

Lemma neighbours_in_increasing_order_witness :
  neighbours sample 1 = Ok [2; 3]%nat ∧
  [2; 3]%nat =
    filter (fun j => is_Some (edge_weight sample 1 j)) (seq 0 (length sample)) ∧
  StronglySorted lt [2; 3]%nat ∧
  NoDup [2; 3]%nat.
Proof.
  assert (neighbours sample 1 = Ok [2; 3]%nat) as H by reflexivity.
  split; [exact H |].
  exact (neighbours_in_increasing_order sample 1 [2; 3]%nat H).
Defined.

Lemma edges_square matrix : square matrix → ∃ es, edges matrix = Ok es.
Proof.
  intros Hsq. unfold edges.
  destruct (for_each_progress
    (fun acc i => for_each (seq 0 (length matrix)) (fun acc j =>
       row ← getitem matrix i; x ← getitem row j;
       if bool_decide (x ≠ 0) then Ok (acc ++ [(i, j, x)]) else Ok acc) acc)
    (fun _ => True) (seq 0 (length matrix))) with (st := @nil (nat * nat * Z))
    as (es & Hes & _); [|done |eauto].
  intros acc i _ [_ Hi]%elem_of_seq.
  destruct (for_each_progress
    (fun acc j => row ← getitem matrix i; x ← getitem row j;
       if bool_decide (x ≠ 0) then Ok (acc ++ [(i, j, x)]) else Ok acc)
    (fun _ => True) (seq 0 (length matrix))) with (st := acc)
    as (acc' & Hacc' & _); [|done |eauto].
  intros a j _ [_ Hj]%elem_of_seq.
  destruct (entry_square matrix i j Hsq) as [x Hx]; [lia.. |].
  unfold entry in Hx. destruct (matrix !! i) as [row|] eqn:Hrow; [|done].
  simpl in Hx. unfold getitem. rewrite Hrow. simpl. rewrite Hx. simpl.
  case_bool_decide; eauto.
Qed.

(** X6: on a square matrix the module's edge list is built without an
    exception, and it agrees with the two helpers: [(i, j, w)] is an edge
    of the list exactly when [neighbours(matrix, i)] lists [j] and
    [distance(matrix, i, j)] is [w]. *)
Theorem edges_agree_with_helpers matrix :
  square matrix →
  ∃ es, edges matrix = Ok es ∧
    ∀ i j w, (i, j, w) ∈ es ↔
      ∃ ns, neighbours matrix i = Ok ns ∧ j ∈ ns ∧
            distance matrix i j = Ok (Some w).
Proof.
  intros Hsq. destruct (edges_square matrix Hsq) as [es Hes]. exists es.
  split; [done |]. intros i j w. rewrite (edges_Ok _ _ Hes i j w). split.
  - intros (Hi & Hj & Hentry & Hw).
    destruct (neighbours_square matrix i Hsq Hi) as [ns Hns]. exists ns.
    assert (edge_weight matrix i j = Some w) as Hedge.
    { unfold edge_weight. rewrite Hentry. simpl. by rewrite bool_decide_eq_true_2. }
    split; [done |]. split; [|by apply distance_edge_weight].
    apply (neighbours_Ok _ _ _ Hns). eauto.
  - intros (ns & Hns & Hj & Hd). apply distance_edge_weight in Hd.
    destruct (edge_weight_lt _ _ _ _ Hsq Hd) as [Hi Hjn].
    unfold edge_weight in Hd. destruct (entry matrix i j) as [x|]; [|done].
    simpl in Hd. case_bool_decide; by simplify_eq.
Qed.

Lemma edges_agree_with_helpers_witness :
  square sample ∧
  ∃ es, edges sample = Ok es ∧
    ∀ i j w, (i, j, w) ∈ es ↔
      ∃ ns, neighbours sample i = Ok ns ∧ j ∈ ns ∧
            distance sample i j = Ok (Some w).
Proof.
  split; [exact sample_square |].
  exact (edges_agree_with_helpers sample sample_square).
Defined.

(** ** What the loop leaves alone *)

Lemma relaxed_settled matrix d u st v st' x :
  relaxed matrix d u st v st' → x ∈ visited st →
  distance_vector st' !! x = distance_vector st !! x ∧
  previous st' !! x = previous st !! x.
Proof.
  intros Hr Hx. destruct Hr as [?|w o ? ? ? ?|w o Hv Hw Hold Hlt Hlen]; try done.
  simpl. assert (v ≠ x) as Hne by (intros Heq; by rewrite Heq in Hv).
  by rewrite !list_lookup_insert_ne.
Qed.

Lemma visit_kept matrix V st0 st d u h st' :
  kept V st0 st → visit matrix d u h st = Ok st' → kept V st0 st'.
Proof.
  intros [Hsub Heq] Hrun.
  eapply (visit_rule_simple (kept V st0) (kept V st0)); [exact Hrun | | | |].
  - intros _. split; [done |]. intros x Hx. by apply Heq.
  - intros ns _ _. split; [simpl; set_solver |]. intros x Hx. by apply Heq.
  - intros ns v s s' _ _ [Hs1 Hs2] Hr. split.
    + by rewrite (relaxed_visited _ _ _ _ _ _ Hr).
    + intros x Hx.
      destruct (relaxed_settled _ _ _ _ _ _ x Hr) as [-> ->]; [set_solver |].
      by apply Hs2.
  - done.
Qed.

Lemma loop_kept matrix fuel st st' :
  loop fuel matrix st = Ok st' → kept (visited st) st st'.
Proof.
  intros Hrun.
  apply (loop_rule (kept (visited st) st) matrix) with
    (fuel := fuel) (st := st) (st' := st'); [| |done].
  - intros s d u h s' Hs _ Hv. by eapply visit_kept.
  - split; [done |]. done.
Qed.

(** X7: from any state on, the rest of the loop keeps the visited vertices
    visited and never again writes the distance or the predecessor of one
    of them: what a vertex holds when it is visited is final. *)
Theorem visited_entries_are_final matrix fuel st st' :
  loop fuel matrix st = Ok st' →
  visited st ⊆ visited st' ∧
  ∀ x, x ∈ visited st →
    distance_vector st' !! x = distance_vector st !! x ∧
    previous st' !! x = previous st !! x.
Proof. apply loop_kept. Qed.

Lemma sample_midway_loop :
  loop (loop_bound sample) sample sample_midway = Ok sample_final.
Proof. vm_compute. reflexivity. Qed.

Lemma visited_entries_are_final_witness :
  loop (loop_bound sample) sample sample_midway = Ok sample_final ∧
  visited sample_midway ⊆ visited sample_final ∧
  ∀ x, x ∈ visited sample_midway →
    distance_vector sample_final !! x = distance_vector sample_midway !! x ∧
    previous sample_final !! x = previous sample_midway !! x.
Proof.
  split; [exact sample_midway_loop |].
  exact (visited_entries_are_final sample (loop_bound sample) sample_midway
           sample_final sample_midway_loop).
Defined.

Lemma visit_source matrix dv0 st d u h st' :
  source_kept matrix dv0 st → heappop (heap st) = Some ((d, u), h) →
  visit matrix d u h st = Ok st' → source_kept matrix dv0 st'.
Proof.
  intros (Hdv & Hprev & Hcase) Hpop Hrun.
  assert (u ∉ visited st → 0%nat ∈ visited (enter u h st)) as Henter.
  { intros Hu. simpl. destruct Hcase as [?|[HV Hh]]; [set_solver |].
    rewrite Hh in Hpop. simpl in Hpop. simplify_eq. set_solver. }
  eapply (visit_rule_simple (source_kept matrix dv0)
            (fun s => 0%nat ∈ visited s ∧
                      distance_vector s !! 0%nat = dv0 !! 0%nat ∧
                      previous s !! 0%nat = replicate (length matrix) None !! 0%nat));
    [exact Hrun | | | |].
  - intros Hu. split; [done |]. split; [done |]. left. simpl.
    destruct Hcase as [?|[HV _]]; [done | set_solver].
  - intros ns Hu _. split; [by apply Henter | done].
  - intros ns v s s' _ _ (H0 & Hd & Hp) Hr.
    destruct (relaxed_settled _ _ _ _ _ _ 0%nat Hr H0) as [-> ->].
    split; [by rewrite (relaxed_visited _ _ _ _ _ _ Hr) | done].
  - intros s (H0 & Hd & Hp). split; [done |]. split; [done | by left].
Qed.

(** X8: whatever the matrix and the distance vector, a run that returns
    has visited vertex 0, has left entry 0 of the distance vector as the
    caller passed it, and has given vertex 0 no predecessor. *)
Theorem source_entry_is_never_written matrix dv st :
  relaxation matrix dv = Ok st →
  0%nat ∈ visited st ∧
  distance_vector st !! 0%nat = dv !! 0%nat ∧
  previous st !! 0%nat = replicate (length matrix) None !! 0%nat.
Proof.
  intros Hrun.
  destruct (loop_rule (source_kept matrix dv) matrix) with
    (fuel := loop_bound matrix) (st := initial_state matrix dv) (st' := st)
    as [(Hdv & Hprev & Hcase) Hheap]; [| |done |].
  - intros. by eapply visit_source.
  - split; [done |]. split; [done |]. by right.
  - split; [|done]. destruct Hcase as [?|[_ Hh]]; [done |]. by rewrite Hheap in Hh.
Qed.

Lemma signed_relaxation :
  relaxation signed_sample used_vector =
    Ok {| visited := list_to_set [0; 1]%nat; heap := [];
          previous := [None; Some 0%nat];
          distance_vector := [Int 5; Int (-3); Inf] |}.
Proof. vm_compute. reflexivity. Qed.

Lemma source_entry_is_never_written_witness :
  relaxation signed_sample used_vector =
    Ok {| visited := list_to_set [0; 1]%nat; heap := [];
          previous := [None; Some 0%nat];
          distance_vector := [Int 5; Int (-3); Inf] |} ∧
  0%nat ∈ (list_to_set [0; 1]%nat : gset nat) ∧
  [Int 5; Int (-3); Inf] !! 0%nat = used_vector !! 0%nat ∧
  [None; Some 0%nat] !! 0%nat = replicate (length signed_sample) (@None nat) !! 0%nat.
Proof.
  split; [exact signed_relaxation |].
  exact (source_entry_is_never_written signed_sample used_vector _ signed_relaxation).
Defined.

(** ** The predecessor table and the printed paths *)

Lemma tree_relaxed matrix d u done st v st' :
  relaxing matrix d u done st → tree matrix st → relaxed matrix d u st v st' →
  tree matrix st'.
Proof.
  intros Hrel Htree Hr.
  destruct Hr as [?|w o ? ? ? ?|w o Hv Hw Hold Hlt Hlen]; try done.
  pose proof (relaxing_visited _ _ _ _ _ Hrel) as Hu.
  pose proof (relaxing_current _ _ _ _ _ Hrel) as Hcur.
  apply lookup_lt_Some in Hold as Hvlen.
  assert (u ≠ v) as Huv by (intros Heq; by rewrite Heq in Hu).
  intros x p Hx. simpl in *. destruct (decide (x = v)) as [->|Hne].
  - rewrite list_lookup_insert_eq in Hx by done. simplify_eq.
    split; [done |]. exists d, w. rewrite list_lookup_insert_ne by done.
    by rewrite list_lookup_insert_eq.
  - rewrite list_lookup_insert_ne in Hx by done.
    destruct (Htree x p Hx) as (Hp & du & w' & Hdu & Hw' & Hdx).
    assert (v ≠ p) as Hvp by (intros Heq; by rewrite Heq in Hv).
    split; [done |]. exists du, w'. by rewrite !list_lookup_insert_ne.
Qed.

Lemma visit_tree matrix st d u h st' :
  square matrix → nonneg matrix →
  correct matrix st ∧ tree matrix st → heappop (heap st) = Some ((d, u), h) →
  visit matrix d u h st = Ok st' → correct matrix st' ∧ tree matrix st'.
Proof.
  intros Hsq Hnn [Hc Ht] Hpop Hrun.
  eapply (visit_rule (fun s => correct matrix s ∧ tree matrix s)
            (fun done s => relaxing matrix d u done s ∧ tree matrix s));
    [exact Hrun | | | |].
  - intros Hu. split; [by eapply correct_discard | done].
  - intros ns Hu _. split; [by apply relaxing_enter |].
    intros v p Hv. destruct (Ht v p Hv) as [Hp ?]. split; [simpl; set_solver | done].
  - intros ns done v s s' _ _ [Hs Hts] Hr.
    split; [by eapply relaxing_step | by eapply tree_relaxed].
  - intros ns s Hns [Hs Hts]. split; [by eapply relaxing_leave | done].
Qed.

Lemma relaxation_tree matrix dv st :
  square matrix → nonneg matrix → pristine dv → (0 < length matrix)%nat →
  relaxation matrix dv = Ok st →
  correct matrix st ∧ tree matrix st ∧ heap st = [].
Proof.
  intros Hsq Hnn Hdv Hn Hrun.
  destruct (loop_rule (fun s => correct matrix s ∧ tree matrix s) matrix) with
    (fuel := loop_bound matrix) (st := initial_state matrix dv) (st' := st)
    as [[Hc Ht] Hheap]; [| |done |done].
  - intros. by eapply visit_tree.
  - split; [by apply correct_initial |].
    intros v u [? _]%lookup_replicate. done.
Qed.

(** The walk from a visited vertex runs up the tree to vertex 0, and what
    it has collected is, read backwards, a path of the vertex's distance. *)
Lemma walk_tree matrix st k v :
  square matrix → (0 < length matrix)%nat → tree matrix st →
  (∀ x, x ∈ visited st → previous st !! x = Some None →
     x = 0%nat ∧ distance_vector st !! 0%nat = Some (Int 0)) →
  rooted (visited st) (previous st) k v →
  ∃ chain d,
    (∀ acc, walk k (previous st) (Some v) acc = Ok (acc ++ chain)) ∧
    is_path matrix 0 v (reverse chain) d ∧
    distance_vector st !! v = Some (Int d).
Proof.
  intros Hsq Hn Htree Hroot.
  induction 1 as [k v Hv Hp|k v u Hv Hp _ (chain & d & Hwalk & Hpath & Hd)].
  - destruct (Hroot v Hv Hp) as [-> H0]. exists [0%nat], 0. split; [|split; [|done]].
    + intros acc. simpl. unfold getitem. rewrite Hp. simpl. apply walk_None.
    + split; [done |]. split; [done |]. simpl. by rewrite decide_True.
  - destruct (Htree v u Hp) as (_ & du & w & Hdu & Hw & Hdv).
    rewrite Hd in Hdu. simplify_eq.
    exists (v :: chain), (du + w). split; [|split; [|done]].
    + intros acc. simpl. unfold getitem. rewrite Hp. simpl.
      rewrite Hwalk, <- app_assoc. done.
    + destruct Hpath as (Hhead & Hlast & Hweight). rewrite reverse_cons.
      split; [|split].
      * destruct (reverse chain); [done | done].
      * apply last_snoc.
      * by eapply path_weight_snoc.
Qed.

Lemma shortest_distances_Ok matrix dv out :
  shortest_distances matrix = Ok (dv, out) →
  ∃ dv0 st, (0 < length matrix)%nat ∧ pristine dv0 ∧
    length dv0 = length matrix ∧
    relaxation matrix dv0 = Ok st ∧ dv = distance_vector st ∧
    report (length matrix) (previous st) (distance_vector st)
      (seq 0 (length matrix)) = Ok out.
Proof.
  unfold shortest_distances. intros H. inv_bind H.
  assert (0 < length matrix)%nat as Hn.
  { unfold initial_distance_vector in Ha. apply setitem_Ok in Ha as [Hlt _].
    by rewrite length_replicate in Hlt. }
  destruct (initial_distance_vector_Ok matrix Hn) as (dv0 & Hdv0 & Hpr & Hlen & _).
  rewrite Hdv0 in Ha. simplify_eq.
  apply dijkstra_Ok in H as (st & Hrun & -> & Hout). eauto 10.
Qed.

(** The path that the report prints for a vertex with a finite distance. *)
Lemma printed_path matrix dv st t d :
  square matrix → nonneg matrix → pristine dv → (t < length matrix)%nat →
  relaxation matrix dv = Ok st → distance_vector st !! t = Some (Int d) →
  ∃ p, report_target (length matrix) (previous st) (distance_vector st) t =
         Ok (PathTo t p (Int d)) ∧
       is_path matrix 0 t p d.
Proof.
  intros Hsq Hnn Hdv Ht Hrun Hd.
  assert (0 < length matrix)%nat as Hn by lia.
  destruct (relaxation_tree _ _ _ Hsq Hnn Hdv Hn Hrun) as (Hc & Htree & Hheap).
  destruct (loop_forest _ _ _ _ (forest_initial matrix dv) Hrun) as [Hf _].
  destruct (loop_bounded _ _ _ _ (bounded_initial matrix dv) Hrun) as [Hb _].
  pose proof (relaxation_history _ _ _ Hrun) as Hh.
  apply bounded_size_vertices in Hb; [|done].
  assert (t ∈ visited st) as Hvis.
  { destruct (decide (t ∈ visited st)) as [|Hnv]; [done |].
    pose proof (correct_waiting _ _ Hc t d Hnv Hd) as Hin.
    rewrite Hheap in Hin. by apply elem_of_nil in Hin. }
  destruct (walk_tree matrix st (size (visited st)) t Hsq Hn Htree)
    as (chain & d' & Hwalk & Hpath & Hd').
  - intros x Hx Hnone. destruct (correct_settled _ _ Hc x Hx) as (dx & Hdx & _).
    rewrite (history_none _ _ Hh x Hnone) in Hdx.
    destruct Hdv as [H0 Hinf]. pose proof (Hinf _ _ Hdx) as ->.
    split; [done |]. by rewrite (history_none _ _ Hh 0%nat Hnone).
  - by apply (forest_rooted _ _ Hf).
  - rewrite Hd in Hd'. simplify_eq. exists (reverse chain). split; [|done].
    unfold report_target, getitem. rewrite Hd. cbn [mbind result_bind is_inf].
    rewrite (walk_fuel_mono _ _ _ _ _ _ (Hwalk []) Hb). done.
Qed.

(** X9: on a square matrix without negative entries, every line of the
    report of the module's run is right.  A vertex without a path from
    vertex 0 has an infinite distance and the line [Unreachable]; any other
    vertex has a finite distance [d] and a line with [d] and a path from
    vertex 0 to it that weighs [d], and no path to it weighs less. *)
Theorem printed_paths_are_shortest matrix dv out t :
  square matrix → nonneg matrix →
  shortest_distances matrix = Ok (dv, out) → (t < length matrix)%nat →
  (dv !! t = Some Inf ∧ out !! t = Some (Unreachable t) ∧
   ∀ p d, ¬ is_path matrix 0 t p d) ∨
  (∃ p d, dv !! t = Some (Int d) ∧ out !! t = Some (PathTo t p (Int d)) ∧
          is_path matrix 0 t p d ∧
          ∀ p' d', is_path matrix 0 t p' d' → d ≤ d').
Proof.
  intros Hsq Hnn (dv0 & st & Hn & Hpr & Hlen0 & Hrun & -> & Hout)%shortest_distances_Ok Ht.
  destruct (relaxation_shaped _ _ _ Hrun) as [(_ & Hlen & _) _].
  destruct (report_Ok _ _ _ _ _ Hout) as [_ Hline].
  destruct (Hline t t) as (l & Hl & Hlt); [by apply lookup_seq_lt |].
  destruct (lookup_lt_is_Some_2 (distance_vector st) t) as [[d|] Hd]; [lia | |].
  - right.
    destruct (printed_path _ _ _ _ _ Hsq Hnn Hpr Ht Hrun Hd) as (p & Hp & Hpath).
    rewrite Hp in Hl. simplify_eq. exists p, d.
    split; [done | split; [done | split; [done |]]].
    intros p' d' Hp'.
    assert (reach matrix t d') as Hreach by (apply reach_is_path; eauto).
    destruct (relaxation_correct _ Hsq Hnn _ _ _ _ Hpr Hrun Hreach)
      as (d'' & Hd'' & _ & Hmin).
    rewrite Hd in Hd''. simplify_eq. by apply Hmin.
  - left. split; [done |]. split.
    + unfold report_target, getitem in Hl. rewrite Hd in Hl. simpl in Hl.
      by simplify_eq.
    + intros p d Hp.
      assert (reach matrix t d) as Hreach by (apply reach_is_path; eauto).
      destruct (relaxation_correct _ Hsq Hnn _ _ _ _ Hpr Hrun Hreach)
        as (d'' & Hd'' & _).
      by rewrite Hd in Hd''.
Qed.

Lemma printed_paths_are_shortest_witness :
  square sample ∧ nonneg sample ∧
  shortest_distances sample =
    Ok (distance_vector sample_final,
        [PathTo 0 [0%nat] (Int 0);
         PathTo 1 [0; 1]%nat (Int 1);
         PathTo 2 [0; 1; 2]%nat (Int 2);
         PathTo 3 [0; 1; 2; 3]%nat (Int 3);
         Unreachable 4]) ∧
  (3 < length sample)%nat ∧
  ∃ p d, distance_vector sample_final !! 3%nat = Some (Int d) ∧
         is_path sample 0 3 p d ∧
         ∀ p' d', is_path sample 0 3 p' d' → d ≤ d'.
Proof.
  assert (3 < length sample)%nat as H3 by (simpl; lia).
  split; [exact sample_square |]. split; [exact sample_nonneg |].
  split; [exact sample_run |]. split; [exact H3 |].
  destruct (printed_paths_are_shortest sample _ _ 3
              sample_square sample_nonneg sample_run H3)
    as [(Hinf & _)|(p & d & Hd & _ & Hp & Hmin)]; [done |].
  exists p, d. auto.
Defined.

(** X10: on a square matrix without negative entries, in the run on a
    vector that is 0 at the source and infinite elsewhere, the predecessor
    that the loop leaves for a vertex has an edge to it, and the vertex's
    distance is the predecessor's distance plus the weight of that edge. *)
Theorem predecessor_edges_are_tight matrix dv st v u :
  square matrix → nonneg matrix → pristine dv →
  relaxation matrix dv = Ok st → previous st !! v = Some (Some u) →
  ∃ du w, edge_weight matrix u v = Some w ∧
          distance_vector st !! u = Some (Int du) ∧
          distance_vector st !! v = Some (Int (du + w)).
Proof.
  intros Hsq Hnn Hdv Hrun Hv.
  destruct (loop_forest _ _ _ _ (forest_initial matrix dv) Hrun) as [Hf _].
  assert (0 < length matrix)%nat as Hn.
  { apply lookup_lt_Some in Hv. rewrite (forest_length _ _ Hf) in Hv. lia. }
  destruct (relaxation_tree _ _ _ Hsq Hnn Hdv Hn Hrun) as (_ & Htree & _).
  destruct (Htree v u Hv) as (_ & du & w & ? & ? & ?). eauto.
Qed.

Lemma sample_start_pristine : pristine sample_start.
Proof.
  split; [done |]. intros v d. do 5 (destruct v as [|v]; [by intros [= ?] |]). done.
Qed.

Lemma predecessor_edges_are_tight_witness :
  square sample ∧ nonneg sample ∧ pristine sample_start ∧
  relaxation sample sample_start = Ok sample_final ∧
  previous sample_final !! 3%nat = Some (Some 2%nat) ∧
  ∃ du w, edge_weight sample 2 3 = Some w ∧
          distance_vector sample_final !! 2%nat = Some (Int du) ∧
          distance_vector sample_final !! 3%nat = Some (Int (du + w)).
Proof.
  split; [exact sample_square |]. split; [exact sample_nonneg |].
  split; [exact sample_start_pristine |]. split; [exact sample_relaxation |].
  split; [reflexivity |].
  exact (predecessor_edges_are_tight sample sample_start sample_final 3 2
           sample_square sample_nonneg sample_start_pristine sample_relaxation
           eq_refl).
Defined.

(** X11: on a square matrix without negative entries, the distances of the
    run on a vector that is 0 at the source and infinite elsewhere cannot
    be improved along any edge: an edge of weight [w] out of a vertex with
    the finite distance [du] leads to a vertex whose distance is finite and
    at most [du + w]. *)
Theorem no_edge_improves_the_result matrix dv st u v du w :
  square matrix → nonneg matrix → pristine dv →
  relaxation matrix dv = Ok st →
  distance_vector st !! u = Some (Int du) → edge_weight matrix u v = Some w →
  ∃ d, distance_vector st !! v = Some (Int d) ∧ d ≤ du + w.
Proof.
  intros Hsq Hnn Hdv Hrun Hu Hw.
  assert (0 < length matrix)%nat as Hn.
  { apply (edge_weight_lt _ _ _ _ Hsq) in Hw. lia. }
  destruct (relaxation_tree _ _ _ Hsq Hnn Hdv Hn Hrun) as (Hc & _ & _).
  assert (reach matrix v (du + w)) as Hreach.
  { eapply reach_edge; [|done]. by apply (correct_reach _ _ Hc). }
  destruct (relaxation_correct _ Hsq Hnn _ _ _ _ Hdv Hrun Hreach)
    as (d & Hd & _ & Hmin).
  exists d. split; [done |]. by apply Hmin.
Qed.

Lemma no_edge_improves_the_result_witness :
  square sample ∧ nonneg sample ∧ pristine sample_start ∧
  relaxation sample sample_start = Ok sample_final ∧
  distance_vector sample_final !! 1%nat = Some (Int 1) ∧
  edge_weight sample 1 3 = Some 5 ∧
  ∃ d, distance_vector sample_final !! 3%nat = Some (Int d) ∧ d ≤ 1 + 5.
Proof.
  split; [exact sample_square |]. split; [exact sample_nonneg |].
  split; [exact sample_start_pristine |]. split; [exact sample_relaxation |].
  split; [reflexivity |]. split; [reflexivity |].
  exact (no_edge_improves_the_result sample sample_start sample_final 1 3 1 5
           sample_square sample_nonneg sample_start_pristine sample_relaxation
           eq_refl eq_refl).
Defined.

(** ** Weights of either sign *)

Lemma explored_initial matrix dv :
  pristine dv → explored matrix (initial_state matrix dv).
Proof.
  intros [H0 Hinf]. split; [|split; [|split]]; simpl.
  - intros d v [= -> ->]%list_elem_of_singleton. eauto.
  - set_solver.
  - intros v d Hd. pose proof (Hinf _ _ Hd) as ->. right. exists 0.
    by apply list_elem_of_singleton.
  - set_solver.
Qed.

Lemma visit_explored matrix st d u h st' :
  square matrix → explored matrix st → heappop (heap st) = Some ((d, u), h) →
  visit matrix d u h st = Ok st' → explored matrix st'.
Proof.
  intros Hsq (Ha & Hb & Hc & Hd) Hpop Hrun.
  pose proof (heappop_elem _ _ _ Hpop) as Hin.
  eapply (visit_rule (explored matrix) (exploring matrix u));
    [exact Hrun | | | |].
  - (* a stale entry *)
    intros Hu. split; [|split; [|split]]; simpl; [|done | |done].
    + intros d' v Hv. apply (Ha d'). apply Hin. by right.
    + intros v d' Hv. destruct (Hc v d' Hv) as [?|[d'' Hd'']]; [by left |].
      apply Hin in Hd'' as [[= -> ->]|?]; [by left | right; eauto].
  - (* entering the for loop *)
    intros ns Hu _. split; [|split; [|split; [|split]]]; simpl.
    + set_solver.
    + intros d' v Hv. apply (Ha d'). apply Hin. by right.
    + intros u' [->%elem_of_singleton|Hu']%elem_of_union; [|by apply Hb].
      apply (Ha d). apply Hin. by left.
    + intros v d' Hv. destruct (Hc v d' Hv) as [?|[d'' Hd'']]; [left; set_solver |].
      apply Hin in Hd'' as [[= -> ->]|?]; [left; set_solver | right; eauto].
    + intros u' v w [->%elem_of_singleton|Hu']%elem_of_union Hw Hdone.
      * specialize (Hdone eq_refl). by apply elem_of_nil in Hdone.
      * by eapply Hd.
  - (* one relaxation *)
    intros ns done v s s' _ _ (Hu & Sa & Sb & Sc & Sd) Hr.
    assert (∀ u' v' w, u' ∈ visited s → edge_weight matrix u' v' = Some w →
              (u' = u → v' ∈ done ++ [v]) → v' ≠ v →
              ∃ d0, distance_vector s !! v' = Some (Int d0)) as Sd'.
    { intros u' v' w Hu' Hw Hdone Hne. apply (Sd u' v' w); [done.. |].
      intros Heq. specialize (Hdone Heq).
      apply elem_of_app in Hdone as [?|Hdone]; [done |].
      by apply list_elem_of_singleton in Hdone. }
    destruct Hr as [Hv|w o Hv Hw Hold Hlt|w o Hv Hw Hold Hlt Hlen].
    + split; [done |]. split; [done |]. split; [done |]. split; [done |].
      intros u' v' w Hu' Hw Hdone.
      destruct (decide (v' = v)) as [->|Hne]; [by apply Sb | by eapply Sd'].
    + split; [done |]. split; [done |]. split; [done |]. split; [done |].
      intros u' v' w' Hu' Hw' Hdone.
      destruct (decide (v' = v)) as [->|Hne]; [|by eapply Sd'].
      destruct o as [z|]; [eauto | done].
    + apply lookup_lt_Some in Hold as Hvlen.
      assert (∀ x, (∃ d0, distance_vector s !! x = Some (Int d0)) →
                ∃ d0, <[v:=Int (d + w)]> (distance_vector s) !! x = Some (Int d0))
        as Hfin.
      { intros x [d0 Hx]. destruct (decide (x = v)) as [->|Hne].
        - rewrite list_lookup_insert_eq by done. eauto.
        - rewrite list_lookup_insert_ne by done. eauto. }
      split; [done |]. split; [|split; [|split]]; simpl.
      * intros d' v' [[= -> ->]|Hv']%elem_of_cons.
        -- rewrite list_lookup_insert_eq by done. eauto.
        -- apply Hfin. by eapply Sa.
      * intros u' Hu'. apply Hfin. by apply Sb.
      * intros v' d' Hv'. destruct (decide (v' = v)) as [->|Hne].
        -- right. eexists. left.
        -- rewrite list_lookup_insert_ne in Hv' by done.
           destruct (Sc v' d' Hv') as [?|[d'' ?]]; [by left |].
           right. exists d''. by right.
      * intros u' v' w' Hu' Hw' Hdone. destruct (decide (v' = v)) as [->|Hne].
        -- rewrite list_lookup_insert_eq by done. eauto.
        -- apply Hfin. by eapply Sd'.
  - (* leaving the for loop *)
    intros ns s Hns (Hu & Sa & Sb & Sc & Sd). split; [done |]. split; [done |].
    split; [done |]. intros u' v w Hu' Hw. apply (Sd u' v w); [done.. |].
    intros ->. apply (neighbours_Ok _ _ _ Hns). split; [|eauto].
    by apply (edge_weight_lt _ _ _ _ Hsq) in Hw as [_ ?].
Qed.

Lemma relaxation_explored matrix dv st :
  square matrix → pristine dv → relaxation matrix dv = Ok st →
  explored matrix st ∧ heap st = [].
Proof.
  intros Hsq Hdv Hrun.
  apply (loop_rule (explored matrix) matrix) with
    (fuel := loop_bound matrix) (st := initial_state matrix dv);
    [| by apply explored_initial | done].
  intros. by eapply visit_explored.
Qed.

(** X12: on a square matrix, whatever the sign of its entries, in the run
    on a vector that is 0 at the source and infinite elsewhere: a finite
    distance is the weight of some path from vertex 0 to the vertex; the
    vertices with a finite distance are those with a path from vertex 0;
    and they are the visited ones. *)
Theorem finite_distances_are_path_weights matrix dv st v :
  square matrix → pristine dv → relaxation matrix dv = Ok st →
  (v < length matrix)%nat →
  (∀ d, distance_vector st !! v = Some (Int d) → ∃ p, is_path matrix 0 v p d) ∧
  ((∃ p d, is_path matrix 0 v p d) → ∃ d, distance_vector st !! v = Some (Int d)) ∧
  (v ∈ visited st ↔ ∃ d, distance_vector st !! v = Some (Int d)).
Proof.
  intros Hsq Hdv Hrun Hv.
  assert (0 < length matrix)%nat as Hn by lia.
  destruct (relaxation_explored _ _ _ Hsq Hdv Hrun) as [(Ha & Hb & Hc & Hd) Hheap].
  pose proof (relaxation_reached matrix dv Hn st Hrun) as [_ Hchanged].
  assert (∀ x d, distance_vector st !! x = Some (Int d) → x ∈ visited st) as Hvis.
  { intros x d Hx. destruct (Hc x d Hx) as [?|[d' Hd']]; [done |].
    rewrite Hheap in Hd'. by apply elem_of_nil in Hd'. }
  assert (∀ x d, reach matrix x d → ∃ d', distance_vector st !! x = Some (Int d'))
    as Hreach.
  { induction 1 as [_|u x d w _ [du Hdu] Hw].
    - destruct (Hchanged 0%nat) as [->|(d & ? & _)]; [|eauto].
      destruct Hdv as [-> _]. eauto.
    - eapply Hd; [by eapply Hvis | done]. }
  clear Hd.
  split; [|split; [|split]].
  - intros d Hd'. apply reach_is_path; [done |].
    destruct (Hchanged v) as [Heq|(d' & Hd'' & Hr)].
    + rewrite Heq in Hd'. destruct Hdv as [H0 Hinf].
      pose proof (Hinf _ _ Hd') as ->. rewrite H0 in Hd'. simplify_eq.
      by constructor.
    + rewrite Hd' in Hd''. by simplify_eq.
  - intros (p & d & Hp). apply (Hreach v d). apply reach_is_path; eauto.
  - apply Hb.
  - intros [d Hd']. by eapply Hvis.
Qed.

Lemma signed_start_pristine : pristine signed_start.
Proof.
  split; [done |]. intros v d. do 2 (destruct v as [|v]; [by intros [= ?] |]). done.
Qed.

Lemma signed_start_relaxation : relaxation signed_sample signed_start = Ok signed_final.
Proof. vm_compute. reflexivity. Qed.

Lemma finite_distances_are_path_weights_witness :
  square signed_sample ∧ pristine signed_start ∧
  relaxation signed_sample signed_start = Ok signed_final ∧
  (1 < length signed_sample)%nat ∧
  (∀ d, distance_vector signed_final !! 1%nat = Some (Int d) →
     ∃ p, is_path signed_sample 0 1 p d) ∧
  ((∃ p d, is_path signed_sample 0 1 p d) →
     ∃ d, distance_vector signed_final !! 1%nat = Some (Int d)) ∧
  (1%nat ∈ visited signed_final ↔
     ∃ d, distance_vector signed_final !! 1%nat = Some (Int d)).
Proof.
  assert (square signed_sample) as Hsq by (repeat constructor).
  assert (1 < length signed_sample)%nat as H1 by (simpl; lia).
  split; [exact Hsq |]. split; [exact signed_start_pristine |].
  split; [exact signed_start_relaxation |]. split; [exact H1 |].
  exact (finite_distances_are_path_weights signed_sample signed_start signed_final 1
           Hsq signed_start_pristine signed_start_relaxation H1).
Defined.

(** ** Self-loops *)

Lemma length_clear_diagonal matrix : length (clear_diagonal matrix) = length matrix.
Proof. unfold clear_diagonal. apply length_imap. Qed.

Lemma clear_diagonal_square matrix : square matrix → square (clear_diagonal matrix).
Proof.
  unfold square. rewrite length_clear_diagonal, !Forall_lookup. intros Hsq i row Hrow.
  unfold clear_diagonal in Hrow. rewrite list_lookup_imap in Hrow.
  destruct (matrix !! i) as [row0|] eqn:Hrow0; simpl in Hrow; [|done].
  simplify_eq. rewrite length_insert. by eapply Hsq.
Qed.

Lemma entry_clear_diagonal matrix i j :
  i ≠ j → entry (clear_diagonal matrix) i j = entry matrix i j.
Proof.
  intros Hne. unfold entry, clear_diagonal. rewrite list_lookup_imap.
  destruct (matrix !! i) as [row|]; simpl; [|done].
  by rewrite list_lookup_insert_ne.
Qed.

Lemma distance_clear_diagonal matrix i j :
  i ≠ j → distance (clear_diagonal matrix) i j = distance matrix i j.
Proof.
  intros Hne. pose proof (entry_clear_diagonal matrix i j Hne) as He.
  unfold distance, getitem, entry, clear_diagonal in *. rewrite list_lookup_imap in *.
  destruct (matrix !! i) as [row|]; simpl in *; [|done]. by rewrite He.
Qed.

Lemma edge_weight_clear_diagonal matrix i j :
  edge_weight (clear_diagonal matrix) i j =
    if decide (i = j) then None else edge_weight matrix i j.
Proof.
  case_decide as Hij.
  - subst j. unfold edge_weight, entry, clear_diagonal. rewrite list_lookup_imap.
    destruct (matrix !! i) as [row|]; simpl; [|done].
    destruct (decide (i < length row)%nat).
    + by rewrite list_lookup_insert_eq.
    + rewrite list_insert_ge by lia. rewrite lookup_ge_None_2 by lia. done.
  - unfold edge_weight. by rewrite entry_clear_diagonal.
Qed.

Lemma relax_clear_diagonal matrix d u st v :
  u ≠ v → relax (clear_diagonal matrix) d u st v = relax matrix d u st v.
Proof. intros Hne. unfold relax. by rewrite distance_clear_diagonal. Qed.

Lemma relax_visited matrix d u st v st' :
  relax matrix d u st v = Ok st' → visited st' = visited st.
Proof. intros Hr%relax_Ok. by eapply relaxed_visited. Qed.

Lemma relax_skip matrix d u st v : v ∈ visited st → relax matrix d u st v = Ok st.
Proof. intros Hv. unfold relax. by case_decide. Qed.

(** The [for] loop over the neighbours, with and without the self-loop. *)
Lemma for_each_clear_diagonal matrix d u l st :
  u ∈ visited st →
  for_each (filter (fun j => is_Some (edge_weight (clear_diagonal matrix) u j)) l)
    (relax (clear_diagonal matrix) d u) st =
  for_each (filter (fun j => is_Some (edge_weight matrix u j)) l)
    (relax matrix d u) st.
Proof.
  revert st. induction l as [|j l IH]; intros st Hu; [done |].
  rewrite !filter_cons, edge_weight_clear_diagonal.
  destruct (decide (u = j)) as [<-|Hne].
  - repeat case_decide; try (by apply IH); try (by destruct select (is_Some None)).
    simpl. rewrite relax_skip by done. simpl. by apply IH.
  - repeat case_decide; try (by apply IH); try done.
    simpl. rewrite relax_clear_diagonal by done.
    destruct (relax matrix d u st j) as [st'| |] eqn:Hr; simpl; [|done..].
    apply IH. by rewrite (relax_visited _ _ _ _ _ _ Hr).
Qed.

Lemma visit_clear_diagonal matrix d u h st :
  square matrix → (u < length matrix)%nat →
  visit (clear_diagonal matrix) d u h st = visit matrix d u h st.
Proof.
  intros Hsq Hu. unfold visit. case_decide as Hvis; [done |].
  destruct (neighbours_square matrix u Hsq Hu) as [ns Hns].
  destruct (neighbours_square (clear_diagonal matrix) u) as [ns0 Hns0].
  { by apply clear_diagonal_square. }
  { by rewrite length_clear_diagonal. }
  rewrite Hns, Hns0. simpl.
  apply neighbours_filter in Hns, Hns0. rewrite length_clear_diagonal in Hns0.
  subst ns ns0. apply for_each_clear_diagonal. simpl. set_solver.
Qed.

Lemma loop_clear_diagonal matrix fuel st :
  square matrix → (0 < length matrix)%nat → bounded matrix st →
  loop fuel (clear_diagonal matrix) st = loop fuel matrix st.
Proof.
  intros Hsq Hn. revert st. induction fuel as [|fuel IH]; intros st Hb; simpl; [done |].
  destruct (heappop (heap st)) as [[[d u] h]|] eqn:Hpop; [|done].
  assert (u < length matrix)%nat as Hu.
  { destruct Hb as [_ Hh]. destruct (Hh d u); [|done | lia].
    apply (heappop_elem _ _ _ Hpop). by left. }
  rewrite visit_clear_diagonal by done.
  destruct (visit matrix d u h st) as [st'| |] eqn:Hrun; simpl; [|done..].
  apply IH. by destruct (visit_budget _ _ _ _ _ _ Hb Hpop Hrun).
Qed.

(** X13: self-loops are ignored.  On a square matrix, [dijkstra] returns and
    prints the same, and the loop ends in the same state, as on the matrix
    with its diagonal set to 0: when a vertex is relaxed along its own
    edge, it is visited already. *)
Theorem self_loops_are_ignored matrix dv :
  square matrix →
  relaxation (clear_diagonal matrix) dv = relaxation matrix dv ∧
  dijkstra (clear_diagonal matrix) dv = dijkstra matrix dv.
Proof.
  intros Hsq.
  assert (relaxation (clear_diagonal matrix) dv = relaxation matrix dv) as Hrel.
  { destruct matrix as [|row matrix]; [done |].
    unfold relaxation, loop_bound, initial_state.
    rewrite length_clear_diagonal. apply loop_clear_diagonal; [done | simpl; lia |].
    apply bounded_initial. }
  split; [done |]. unfold dijkstra. by rewrite Hrel, length_clear_diagonal.
Qed.

Lemma self_loops_are_ignored_witness :
  square sample ∧
  relaxation (clear_diagonal sample) sample_start = relaxation sample sample_start ∧
  dijkstra (clear_diagonal sample) sample_start = dijkstra sample sample_start.
Proof.
  split; [exact sample_square |].
  exact (self_loops_are_ignored sample sample_start sample_square).
Defined.

(** ** The matrix that the module generates *)

Lemma random_matrix_row n absent weight i :
  (i < n)%nat →
  random_matrix n absent weight !! i =
    Some ((fun j => if bool_decide (i = j) || absent i j then 0 else weight i j)
            <$> seq 0 n).
Proof.
  intros Hi. unfold random_matrix. by rewrite list_lookup_fmap, lookup_seq_lt.
Qed.

Lemma module_matrix_Ok n absent weight k w :
  (1 ≤ k < n)%nat →
  ∃ row,
    random_matrix n absent weight !! 0%nat = Some row ∧ length row = n ∧
    module_matrix n absent weight k w =
      Ok (<[0%nat:=<[k:=w]> row]> (random_matrix n absent weight)).
Proof.
  intros Hk. eexists. split; [apply random_matrix_row; lia |].
  split; [by rewrite length_fmap, length_seq |].
  unfold module_matrix, set_first_row, getitem. rewrite random_matrix_row by lia.
  simpl. unfold setitem. rewrite decide_True by (rewrite length_fmap, length_seq; lia).
  simpl. rewrite decide_True; [done |].
  unfold random_matrix. rewrite length_fmap, length_seq. lia.
Qed.

Lemma module_matrix_entry n absent weight k w matrix i j :
  (1 ≤ k < n)%nat → module_matrix n absent weight k w = Ok matrix →
  (i < n)%nat → (j < n)%nat →
  entry matrix i j =
    Some (if decide (i = 0%nat ∧ j = k) then w
          else if bool_decide (i = j) || absent i j then 0 else weight i j).
Proof.
  intros Hk Hm Hi Hj.
  destruct (module_matrix_Ok n absent weight k w Hk) as (row & Hrow & _ & Heq).
  rewrite random_matrix_row in Hrow by lia. injection Hrow as <-.
  rewrite Heq in Hm. injection Hm as <-. unfold entry.
  destruct (decide (i = 0%nat)) as [->|Hi0].
  - rewrite list_lookup_insert_eq
      by (unfold random_matrix; rewrite length_fmap, length_seq; lia).
    simpl. destruct (decide (j = k)) as [->|Hjk].
    + rewrite list_lookup_insert_eq by (rewrite length_fmap, length_seq; lia).
      by rewrite decide_True.
    + rewrite list_lookup_insert_ne by done.
      rewrite list_lookup_fmap, lookup_seq_lt by done. simpl.
      by rewrite decide_False by (by intros [_ ?]).
  - rewrite list_lookup_insert_ne by done. rewrite random_matrix_row by done. simpl.
    rewrite list_lookup_fmap, lookup_seq_lt by done. simpl.
    by rewrite decide_False by (by intros [? _]).
Qed.

Lemma module_matrix_shape n absent weight k w matrix :
  (1 ≤ k < n)%nat → module_matrix n absent weight k w = Ok matrix →
  length matrix = n ∧ square matrix.
Proof.
  intros Hk Hm.
  destruct (module_matrix_Ok n absent weight k w Hk) as (row & Hrow & Hlen & Heq).
  rewrite Heq in Hm. injection Hm as <-.
  assert (length (<[0%nat:=<[k:=w]> row]> (random_matrix n absent weight)) = n) as Hn.
  { rewrite length_insert. unfold random_matrix. by rewrite length_fmap, length_seq. }
  split; [done |]. unfold square. rewrite Hn. apply Forall_lookup. intros i r Hr.
  destruct (decide (i = 0%nat)) as [->|Hi0].
  - rewrite list_lookup_insert_eq in Hr by (by eapply lookup_lt_Some).
    simplify_eq. by rewrite length_insert.
  - rewrite list_lookup_insert_ne in Hr by done.
    apply lookup_lt_Some in Hr as Hi.
    unfold random_matrix in Hi. rewrite length_fmap, length_seq in Hi.
    rewrite random_matrix_row in Hr by done. simplify_eq.
    by rewrite length_fmap, length_seq.
Qed.

(** X14: whatever the random draws, the matrix that lines 8 and 9 of the
    module build is an [n] by [n] matrix with entries between 0 and 10 and
    a diagonal of zeros, in which vertex 0 has the edge of weight [w] to
    vertex [k] that line 9 writes; so the run on the module's distance
    vector returns, and the distance it finds for [k] is at most [w]. *)
Theorem module_matrix_is_a_graph n absent weight k w :
  (1 ≤ k < n)%nat → 1 ≤ w ≤ 10 → (∀ i j, 1 ≤ weight i j ≤ 10) →
  ∃ matrix,
    module_matrix n absent weight k w = Ok matrix ∧
    length matrix = n ∧ square matrix ∧ nonneg matrix ∧
    (∀ i j x, entry matrix i j = Some x → 0 ≤ x ≤ 10) ∧
    (∀ i, (i < n)%nat → entry matrix i i = Some 0) ∧
    edge_weight matrix 0 k = Some w ∧
    ∃ dv out d,
      shortest_distances matrix = Ok (dv, out) ∧
      dv !! k = Some (Int d) ∧ d ≤ w.
Proof.
  intros Hk Hw Hweight.
  destruct (module_matrix_Ok n absent weight k w Hk) as (row & _ & _ & Hm).
  eexists. split; [exact Hm |].
  set (matrix := <[0%nat:=<[k:=w]> row]> (random_matrix n absent weight)) in *.
  destruct (module_matrix_shape _ _ _ _ _ _ Hk Hm) as [Hn Hsq].
  pose proof (fun i j => module_matrix_entry _ _ _ _ _ _ i j Hk Hm) as Hentry.
  assert (∀ i j x, entry matrix i j = Some x → 0 ≤ x ≤ 10) as Hrange.
  { intros i j x Hx. destruct (entry_lt _ _ _ _ Hsq Hx) as [Hi Hj].
    rewrite Hn in Hi, Hj. rewrite (Hentry i j Hi Hj) in Hx. simplify_eq.
    specialize (Hweight i j).
    case_decide; [lia |]. destruct (bool_decide (i = j) || absent i j); lia. }
  assert (nonneg matrix) as Hnn.
  { apply Forall_lookup. intros i r Hr. apply Forall_lookup. intros j x Hx.
    apply (Hrange i j x). unfold entry. rewrite Hr. done. }
  assert (edge_weight matrix 0 k = Some w) as Hedge.
  { unfold edge_weight. rewrite Hentry by lia. simpl.
    rewrite decide_True by done. by rewrite bool_decide_eq_true_2 by lia. }
  split; [done |]. split; [done |]. split; [done |]. split; [done |].
  split; [|split; [done |]].
  { intros i Hi. rewrite Hentry by done.
    rewrite decide_False by lia. by rewrite bool_decide_eq_true_2. }
  assert (0 < length matrix)%nat as Hpos by lia.
  destruct (initial_distance_vector_Ok matrix Hpos) as (dv0 & Hdv0 & Hpr & Hlen & _).
  destruct (dijkstra_returns matrix dv0 Hsq) as (st & out & Hrun & _ & Hdij); [lia |].
  assert (reach matrix k (0 + w)) as Hreach.
  { eapply reach_edge; [by constructor | done]. }
  destruct (relaxation_correct _ Hsq Hnn _ _ _ _ Hpr Hrun Hreach)
    as (d & Hd & _ & Hmin).
  exists (distance_vector st), out, d. split; [|split; [done |]].
  - unfold shortest_distances. by rewrite Hdv0.
  - specialize (Hmin _ Hreach). lia.
Qed.

Lemma sample_weight_range i j : 1 ≤ sample_weight i j ≤ 10.
Proof.
  unfold sample_weight. pose proof (Nat.mod_upper_bound (i + j) 10). lia.
Qed.

Lemma module_matrix_is_a_graph_witness :
  (1 ≤ 5 < 8)%nat ∧ 1 ≤ 7 ≤ 10 ∧ (∀ i j, 1 ≤ sample_weight i j ≤ 10) ∧
  ∃ matrix,
    module_matrix 8 sample_absent sample_weight 5 7 = Ok matrix ∧
    length matrix = 8%nat ∧ square matrix ∧ nonneg matrix ∧
    (∀ i j x, entry matrix i j = Some x → 0 ≤ x ≤ 10) ∧
    (∀ i, (i < 8)%nat → entry matrix i i = Some 0) ∧
    edge_weight matrix 0 5 = Some 7 ∧
    ∃ dv out d,
      shortest_distances matrix = Ok (dv, out) ∧
      dv !! 5%nat = Some (Int d) ∧ d ≤ 7.
Proof.
  split; [lia |]. split; [lia |]. split; [exact sample_weight_range |].
  apply (module_matrix_is_a_graph 8 sample_absent sample_weight 5 7);
    [lia | lia | exact sample_weight_range].
Defined.

(** ** What a second call prints *)

Lemma walk_no_predecessor n t :
  (t < n)%nat → walk n (replicate n None) (Some t) [] = Ok [t].
Proof.
  intros Ht. destruct n as [|n]; [lia |].
  change (walk (S n) (replicate (S n) None) (Some t) []) with
    (next ← getitem (replicate (S n) (@None nat)) t;
     walk n (replicate (S n) None) next ([] ++ [t])).
  unfold getitem. rewrite lookup_replicate_2 by done. simpl. apply walk_None.
Qed.

Lemma report_target_no_predecessor n dv t x :
  (t < n)%nat → dv !! t = Some x →
  report_target n (replicate n None) dv t =
    Ok (if is_inf x then Unreachable t else PathTo t [t] x).
Proof.
  intros Ht Hx. unfold report_target, getitem. rewrite Hx.
  cbn [mbind result_bind]. destruct (is_inf x); [done |].
  by rewrite walk_no_predecessor.
Qed.

(** X15: when a call of [dijkstra] has returned, a second call on the list
    it has returned does so too and returns the same distances, but its
    report has lost the paths: for every vertex with a finite distance it
    prints the path that consists of that vertex alone. *)
Theorem second_call_prints_no_paths matrix dv dv1 out1 :
  dijkstra matrix dv = Ok (dv1, out1) →
  ∃ out2,
    dijkstra_twice matrix dv = Ok ((dv1, out1), (dv1, out2)) ∧
    length out2 = length matrix ∧
    ∀ t x, (t < length matrix)%nat → dv1 !! t = Some x →
      out2 !! t = Some (if is_inf x then Unreachable t else PathTo t [t] x).
Proof.
  intros Hfirst.
  pose proof (fun t => dijkstra_reads_every_entry _ _ _ _ t Hfirst) as Hlong.
  apply dijkstra_Ok in Hfirst as Hinv. destruct Hinv as (st1 & Hrun & -> & Hout1).
  destruct (relaxation_shaped _ _ _ Hrun) as [(_ & Hlen & _) _].
  pose proof (relaxation_again matrix dv st1 Hrun) as Hagain.
  destruct (report_returns (length matrix) (replicate (length matrix) None)
              (distance_vector st1) (seq 0 (length matrix))) as [out2 Hout2].
  { intros t [_ Ht]%elem_of_seq.
    destruct (lookup_lt_is_Some_2 (distance_vector st1) t) as [x Hx].
    { rewrite Hlen. apply Hlong. lia. }
    rewrite (report_target_no_predecessor _ _ _ x) by (done || lia). eauto. }
  assert (dijkstra matrix (distance_vector st1) = Ok (distance_vector st1, out2))
    as Hsecond.
  { apply dijkstra_Ok. eexists. split; [exact Hagain |]. split; [done |]. exact Hout2. }
  exists out2. split; [|split].
  - unfold dijkstra_twice. rewrite Hfirst. simpl. by rewrite Hsecond.
  - destruct (report_Ok _ _ _ _ _ Hout2) as [-> _]. apply length_seq.
  - intros t x Ht Hx. destruct (report_Ok _ _ _ _ _ Hout2) as [_ Hline].
    destruct (Hline t t) as (l & Hl & ->); [by apply lookup_seq_lt |].
    rewrite (report_target_no_predecessor _ _ _ x) in Hl by done. by simplify_eq.
Qed.

Lemma second_call_prints_no_paths_witness :
  ∃ out2,
    dijkstra_twice sample sample_start =
      Ok ((distance_vector sample_final,
           [PathTo 0 [0%nat] (Int 0);
            PathTo 1 [0; 1]%nat (Int 1);
            PathTo 2 [0; 1; 2]%nat (Int 2);
            PathTo 3 [0; 1; 2; 3]%nat (Int 3);
            Unreachable 4]),
          (distance_vector sample_final, out2)) ∧
    length out2 = length sample ∧
    ∀ t x, (t < length sample)%nat → distance_vector sample_final !! t = Some x →
      out2 !! t = Some (if is_inf x then Unreachable t else PathTo t [t] x).
Proof.
  exact (second_call_prints_no_paths sample sample_start _ _ sample_dijkstra).
Defined.

(** ** Entries beyond the matrix *)

(** X16: a distance vector may be longer than the matrix; the entries
    beyond the last vertex are never written. *)
Theorem entries_beyond_the_matrix_are_kept matrix dv st t :
  relaxation matrix dv = Ok st → (length matrix ≤ t)%nat →
  distance_vector st !! t = dv !! t.
Proof.
  intros Hrun Ht.
  apply (loop_rule (fun s => distance_vector s !! t = dv !! t) matrix) with
    (fuel := loop_bound matrix) (st := initial_state matrix dv) (st' := st);
    [| done | done].
  intros s d u h s' Hs _ Hv.
  eapply (visit_rule_simple (fun s => distance_vector s !! t = dv !! t)
            (fun s => distance_vector s !! t = dv !! t)); [exact Hv | | | |]; try done.
  intros ns v s1 s2 Hns Hvin H1 Hr.
  apply (neighbours_Ok _ _ _ Hns) in Hvin as [Hvn _].
  destruct Hr as [?|w o ? ? ? ?|w o ? ? ? ? ?]; try done.
  simpl. rewrite list_lookup_insert_ne by lia. done.
Qed.

Lemma entries_beyond_the_matrix_are_kept_witness :
  relaxation signed_sample used_vector =
    Ok {| visited := list_to_set [0; 1]%nat; heap := [];
          previous := [None; Some 0%nat];
          distance_vector := [Int 5; Int (-3); Inf] |} ∧
  (length signed_sample ≤ 2)%nat ∧
  [Int 5; Int (-3); Inf] !! 2%nat = used_vector !! 2%nat.
Proof.
  split; [exact signed_relaxation |]. split; [simpl; lia |].
  apply (entries_beyond_the_matrix_are_kept signed_sample used_vector _ 2
           signed_relaxation).
  simpl; lia.
Defined.
